(** * MagentaInterruptContext: the interrupt-context reachability pass

    A shallow embedding of
    [MagentaPasses/MagentaInterruptContext/MagentaInterruptContext.cpp]
    and the properties of its traversal. *)

From stdpp Require Import base decidable option list strings gmap sets.

#[local] Set Warnings "-clear-no-such-hyp".

(** ** The program representation

    The pass only reads the LLVM module through a handful of accessors.
    [Function] and [BasicBlock] stand for the pointers the pass stores in its
    pointer sets; an accessor of the module is a function of that identity. *)

Definition Function := nat.
Definition BasicBlock := nat.

(** [dyn_cast<CallInst>] succeeds on [CallInst] only; [getCalledFunction]
    is null for an indirect call. *)
Inductive Instruction : Type :=
  | CallInst (getCalledFunction : option Function)
  | OtherInst.

Record Module : Type := {
  (** [M.getFunction(Name)]: null when no function has that name. *)
  getFunction : string → option Function;
  (** [F->getName().str()]: the raw linkage name. *)
  getName : Function → string;
  (** [F->getEntryBlock()], [None] when [F->size()] is 0 (a declaration). *)
  getEntryBlock : Function → option BasicBlock;
  (** the instructions from [Block.begin()] to [Block.end()]. *)
  instructions : BasicBlock → list Instruction;
  (** [Block.getTerminator()], with the results of [getSuccessor(i)] for
      [i] below [getNumSuccessors()]; a successor can be null. *)
  getTerminator : BasicBlock → option (list (option BasicBlock));
}.

(** The three constant members of the pass. *)
Record Config : Type := {
  BlackListSet : gset string;
  SinkFunctionSet : gset string;
  SourceFunction : string;
}.

Definition InterruptContext_config : Config := {|
  BlackListSet :=
    {[ "mutex_acquire"; "mutex_acquire_timeout";
       "mutex_acquire_timeout_internal" ]};
  SinkFunctionSet := {[ "thread_preempt"; "panic"; "_panic" ]};
  SourceFunction := "x86_exception_handler";
|}.

(** ** The state of the pass

    The mutable members of [InterruptContext], and the text written to
    [errs()] so far. *)
Record State : Type := {
  BasicBlockPtrSet : gset BasicBlock;
  FuncPtrSet : gset Function;
  FunctionChain : list string;
  errs : string;
}.

Definition initial_state : State := {|
  BasicBlockPtrSet := ∅;
  FuncPtrSet := ∅;
  FunctionChain := [];
  errs := "";
|}.

(** A computation of the pass: it threads the state, and gives [None] only
    when the recursion depth allowed by the fuel is used up. *)
Definition Visit (A : Type) : Type := State → option (A * State).

Definition ret {A} (a : A) : Visit A := λ st, Some (a, st).

Definition bind {A B} (m : Visit A) (k : A → Visit B) : Visit B :=
  λ st, match m st with
        | Some (a, st') => k a st'
        | None => None
        end.

Definition out_of_fuel {A} : Visit A := λ _, None.

Definition get : Visit State := λ st, Some (st, st).

Definition modify (f : State → State) : Visit unit := λ st, Some (tt, f st).

Notation "x <- m ;; k" := (bind m (λ x, k))
  (at level 100, m at next level, right associativity, only parsing).
Notation "m ;;; k" := (bind m (λ _, k))
  (at level 100, right associativity, only parsing).

(** [BasicBlockPtrSet.insert(&Block)] *)
Definition insert_block (Block : BasicBlock) (st : State) : State :=
  {| BasicBlockPtrSet := {[ Block ]} ∪ BasicBlockPtrSet st;
     FuncPtrSet := FuncPtrSet st;
     FunctionChain := FunctionChain st;
     errs := errs st |}.

(** [FuncPtrSet.insert(F)] *)
Definition insert_function (F : Function) (st : State) : State :=
  {| BasicBlockPtrSet := BasicBlockPtrSet st;
     FuncPtrSet := {[ F ]} ∪ FuncPtrSet st;
     FunctionChain := FunctionChain st;
     errs := errs st |}.

(** [FunctionChain.push_back(Name)] *)
Definition push_back (Name : string) (st : State) : State :=
  {| BasicBlockPtrSet := BasicBlockPtrSet st;
     FuncPtrSet := FuncPtrSet st;
     FunctionChain := FunctionChain st ++ [Name];
     errs := errs st |}.

(** [FunctionChain.pop_back()] *)
Definition pop_back (st : State) : State :=
  {| BasicBlockPtrSet := BasicBlockPtrSet st;
     FuncPtrSet := FuncPtrSet st;
     FunctionChain := removelast (FunctionChain st);
     errs := errs st |}.

(** [errs() << s] *)
Definition write (s : string) (st : State) : State :=
  {| BasicBlockPtrSet := BasicBlockPtrSet st;
     FuncPtrSet := FuncPtrSet st;
     FunctionChain := FunctionChain st;
     errs := errs st +:+ s |}.

Definition newline : string := String (Ascii.ascii_of_nat 10) EmptyString.

(** The loop [for (auto F : FunctionChain) errs() << " " << F;] *)
Fixpoint warnOnCallChain_loop (chain : list string) : Visit unit :=
  match chain with
  | [] => ret tt
  | F :: chain' =>
      modify (write " ") ;;; modify (write F) ;;; warnOnCallChain_loop chain'
  end.

(** [InterruptContext::warnOnCallChain] *)
Definition warnOnCallChain : Visit unit :=
  modify (write "Reached a black-listed function via the following call chain:") ;;;
  st <- get ;;
  warnOnCallChain_loop (FunctionChain st) ;;;
  modify (write newline).

(** The text one call of [warnOnCallChain] writes for a chain, as the code
    writes it: the heading, then a space and a name for every entry, then
    the end of the line. *)
Fixpoint chain_text (chain : list string) : string :=
  match chain with
  | [] => ""
  | F :: chain' => " " +:+ F +:+ chain_text chain'
  end.

Definition report_text (chain : list string) : string :=
  "Reached a black-listed function via the following call chain:"
    +:+ chain_text chain +:+ newline.

(** The report line in the words of the output format: the heading, a
    space, the names separated by single spaces, and the end of the line. *)
Definition report_line (names : list string) : string :=
  "Reached a black-listed function via the following call chain: "
    +:+ String.concat " " names +:+ newline.

(** The text of several reports, in the order they are written. *)
Definition reports_text (chains : list (list string)) : string :=
  foldr (λ chain rest, report_text chain +:+ rest) "" chains.

(** What a traversal does, in the order it does it: it descends into the
    body of a function, it examines a block, it reports a chain. *)
Inductive Event : Type :=
  | EvFunction (F : Function)
  | EvBlock (Block : BasicBlock)
  | EvReport (chain : list string).

Definition reported (log : list Event) : list (list string) :=
  omap (λ e, match e with EvReport chain => Some chain | _ => None end) log.

Definition entered_functions (log : list Event) : list Function :=
  omap (λ e, match e with EvFunction F => Some F | _ => None end) log.

Definition entered_blocks (log : list Event) : list BasicBlock :=
  omap (λ e, match e with EvBlock B => Some B | _ => None end) log.

(** The text of several lines, in the order they are written. *)
Definition lines_text (lines : list string) : string :=
  foldr String.app "" lines.

(** ** Small programs to run the pass on *)

Definition no_demangle (raw : string) : option string := None.

(** Demangles the one C++ name of the examples. *)
Definition demangle_A (raw : string) : option string :=
  if decide (raw = "_Z1Av") then Some "A()" else None.

(** The handler calls [A()], which calls [mutex_acquire] and calls the
    handler back; the entry block of the handler also branches to itself. *)
Definition cyclic_module : Module := {|
  getFunction := λ Name,
    if decide (Name = "x86_exception_handler") then Some 0 else None;
  getName := λ F,
    match F with
    | 0 => "x86_exception_handler"
    | 1 => "_Z1Av"
    | 2 => "mutex_acquire"
    | _ => "panic"
    end;
  getEntryBlock := λ F,
    match F with
    | 0 => Some 0
    | 1 => Some 1
    | 3 => Some 2
    | _ => None
    end;
  instructions := λ B,
    match B with
    | 0 => [OtherInst; CallInst (Some 1); CallInst None; CallInst (Some 3)]
    | 1 => [CallInst (Some 2); CallInst (Some 0)]
    | _ => [CallInst (Some 2)]
    end;
  getTerminator := λ B,
    match B with
    | 0 => Some [Some 1; None; Some 0]
    | _ => None
    end;
|}.

(** The handler calls [B] and [C]; both call [mutex_acquire]. *)
Definition two_callers_module : Module := {|
  getFunction := λ Name,
    if decide (Name = "x86_exception_handler") then Some 0 else None;
  getName := λ F,
    match F with
    | 0 => "x86_exception_handler"
    | 1 => "B"
    | 2 => "C"
    | _ => "mutex_acquire"
    end;
  getEntryBlock := λ F,
    match F with
    | 0 => Some 0
    | 1 => Some 1
    | 2 => Some 2
    | _ => None
    end;
  instructions := λ B,
    match B with
    | 0 => [CallInst (Some 1); CallInst (Some 2)]
    | _ => [CallInst (Some 3)]
    end;
  getTerminator := λ B, Some [];
|}.

(** The state in which the entry block of the handler is examined. *)
Definition handler_entered : State :=
  insert_block 0
    (insert_function 0 (push_back "x86_exception_handler" initial_state)).

(** A module without the source function. *)
Definition no_source_module : Module := {|
  getFunction := λ Name, None;
  getName := λ F, "main";
  getEntryBlock := λ F, Some 0;
  instructions := λ B, [CallInst (Some 0)];
  getTerminator := λ B, None;
|}.

(** A configuration whose sink set and black list overlap. *)
Definition overlapping_config : Config := {|
  BlackListSet := {[ "mutex_acquire"; "panic" ]};
  SinkFunctionSet := {[ "panic" ]};
  SourceFunction := "x86_exception_handler";
|}.

(** ** The same graph at other addresses

    Two runs of the compiler build the same module at different addresses.
    [same_graph σf σb M M']: [M'] is [M] with the function at [F] placed
    at [σf F] and the block at [B] placed at [σb B]. *)

Definition rename_instruction (σf : Function → Function)
    (Inst : Instruction) : Instruction :=
  match Inst with
  | CallInst callee => CallInst (option_map σf callee)
  | OtherInst => OtherInst
  end.

Definition rename_successors (σb : BasicBlock → BasicBlock)
    (Succs : list (option BasicBlock)) : list (option BasicBlock) :=
  map (option_map σb) Succs.

Record same_graph (σf : Function → Function) (σb : BasicBlock → BasicBlock)
    (M M' : Module) : Prop := {
  same_functions : Inj (=) (=) σf;
  same_blocks : Inj (=) (=) σb;
  same_getFunction Name :
    getFunction M' Name = option_map σf (getFunction M Name);
  same_getName F :
    getName M' (σf F) = getName M F;
  same_getEntryBlock F :
    getEntryBlock M' (σf F) = option_map σb (getEntryBlock M F);
  same_instructions B :
    instructions M' (σb B) = map (rename_instruction σf) (instructions M B);
  same_getTerminator B :
    getTerminator M' (σb B)
    = option_map (rename_successors σb) (getTerminator M B);
}.

(** The state of the pass on the renamed module: the same chain and text,
    the pointer sets at the new addresses. *)
Definition rename_state (σf : Function → Function)
    (σb : BasicBlock → BasicBlock) (st : State) : State :=
  {| BasicBlockPtrSet := set_map σb (BasicBlockPtrSet st);
     FuncPtrSet := set_map σf (FuncPtrSet st);
     FunctionChain := FunctionChain st;
     errs := errs st |}.

Definition rename_result (σf : Function → Function)
    (σb : BasicBlock → BasicBlock) (out : bool * State) : bool * State :=
  (out.1, rename_state σf σb out.2).

(** [M] with every function and block [k] addresses further. *)
Definition shift_module (k : nat) (M : Module) : Module := {|
  getFunction := λ Name, option_map (λ F, F + k) (getFunction M Name);
  getName := λ F, getName M (F - k);
  getEntryBlock := λ F, option_map (λ B, B + k) (getEntryBlock M (F - k));
  instructions := λ B,
    map (rename_instruction (λ F, F + k)) (instructions M (B - k));
  getTerminator := λ B,
    option_map (rename_successors (λ B, B + k)) (getTerminator M (B - k));
|}.

(** ** What the traversal reads of a block *)

(** The functions called directly, in the order of the instructions. *)
Definition direct_callees (Insts : list Instruction) : list Function :=
  omap (λ Inst, match Inst with
                | CallInst (Some F) => Some F
                | _ => None
                end) Insts.

(** The successors that are not null, in order; none without a
    terminator. *)
Definition present_successors
    (Terminator : option (list (option BasicBlock))) : list BasicBlock :=
  match Terminator with
  | Some Succs => omap id Succs
  | None => []
  end.

(** Two modules with the same functions, in which every block has the same
    direct callees and the same non-null successors. *)
Record same_edges (M M' : Module) : Prop := {
  edges_getFunction Name : getFunction M' Name = getFunction M Name;
  edges_getName F : getName M' F = getName M F;
  edges_getEntryBlock F : getEntryBlock M' F = getEntryBlock M F;
  edges_callees B :
    direct_callees (instructions M' B) = direct_callees (instructions M B);
  edges_successors B :
    present_successors (getTerminator M' B)
    = present_successors (getTerminator M B);
}.

(** [cyclic_module] without its indirect call, its other instruction and
    its null successor, and with empty terminators where it has none. *)
Definition cyclic_module_edges_only : Module := {|
  getFunction := getFunction cyclic_module;
  getName := getName cyclic_module;
  getEntryBlock := getEntryBlock cyclic_module;
  instructions := λ B,
    match B with
    | 0 => [CallInst (Some 1); CallInst (Some 3)]
    | 1 => [CallInst (Some 2); CallInst (Some 0)]
    | _ => [CallInst (Some 2)]
    end;
  getTerminator := λ B,
    match B with
    | 0 => Some [Some 1; Some 0]
    | _ => Some []
    end;
|}.

(** The handler calls [B] and [C]; both call [D], which calls
    [mutex_acquire]. *)
Definition diamond_module : Module := {|
  getFunction := λ Name,
    if decide (Name = "x86_exception_handler") then Some 0 else None;
  getName := λ F,
    match F with
    | 0 => "x86_exception_handler"
    | 1 => "B"
    | 2 => "C"
    | 3 => "D"
    | _ => "mutex_acquire"
    end;
  getEntryBlock := λ F,
    match F with
    | 0 => Some 0
    | 1 => Some 1
    | 2 => Some 2
    | 3 => Some 3
    | _ => None
    end;
  instructions := λ B,
    match B with
    | 0 => [CallInst (Some 1); CallInst (Some 2)]
    | 1 => [CallInst (Some 3)]
    | 2 => [CallInst (Some 3)]
    | _ => [CallInst (Some 4)]
    end;
  getTerminator := λ B, None;
|}.

(** ** Names without spaces *)

Fixpoint has_space (s : string) : bool :=
  match s with
  | EmptyString => false
  | String c s' =>
      if Ascii.eqb c (Ascii.ascii_of_nat 32) then true else has_space s'
  end.


(** Decides a closed decidable proposition by evaluation. *)
Ltac by_computation := apply (bool_decide_unpack _); vm_compute; exact I.

Section Pass.

Variable cfg : Config.
(** [__cxxabiv1::__cxa_demangle]: [None] when it returns a null pointer. *)
Variable cxa_demangle : string → option string.
Variable M : Module.

(** The loop of [InterruptContext::examineBlock], over the callee visit. *)
Fixpoint examineBlock_loop (traverse : Function → Visit bool)
    (Insts : list Instruction) (Passed : bool) : Visit bool :=
  match Insts with
  | [] => ret Passed
  | CallInst (Some F) :: Insts' =>
      r <- traverse F ;;
      examineBlock_loop traverse Insts' (Passed && r)
  | _ :: Insts' => examineBlock_loop traverse Insts' Passed
  end.

(** The loop over the successors in [InterruptContext::traverseBasicBlock]. *)
Fixpoint successors_loop (traverse : BasicBlock → Visit bool)
    (Succs : list (option BasicBlock)) (Passed : bool) : Visit bool :=
  match Succs with
  | [] => ret Passed
  | Some SuccBlock :: Succs' =>
      r <- traverse SuccBlock ;;
      successors_loop traverse Succs' (Passed && r)
  | None :: Succs' => successors_loop traverse Succs' Passed
  end.

(** [InterruptContext::traverseFunction] and
    [InterruptContext::traverseBasicBlock]; [fuel] bounds the depth of the
    recursion. *)
Fixpoint traverseFunction (fuel : nat) (F : Function) {struct fuel}
    : Visit bool :=
  match fuel with
  | 0 => out_of_fuel
  | S fuel' =>
      st <- get ;;
      if decide (F ∈ FuncPtrSet st) then ret true else
      let Name :=
        match cxa_demangle (getName M F) with
        | Some DemangledName => DemangledName
        | None => getName M F
        end in
      if decide (Name ∈ SinkFunctionSet cfg) then ret true else
      modify (push_back Name) ;;;
      if decide (Name ∈ BlackListSet cfg) then
        warnOnCallChain ;;;
        modify pop_back ;;;
        ret false
      else
        modify (insert_function F) ;;;
        Passed <-
          match getEntryBlock M F with
          | Some FirstBlock => traverseBasicBlock fuel' FirstBlock
          | None => ret true
          end ;;
        modify pop_back ;;;
        ret Passed
  end
with traverseBasicBlock (fuel : nat) (Block : BasicBlock) {struct fuel}
    : Visit bool :=
  match fuel with
  | 0 => out_of_fuel
  | S fuel' =>
      st <- get ;;
      if decide (Block ∈ BasicBlockPtrSet st) then ret true else
      modify (insert_block Block) ;;;
      Passed <-
        examineBlock_loop (traverseFunction fuel') (instructions M Block) true ;;
      match getTerminator M Block with
      | None => ret Passed
      | Some Succs => successors_loop (traverseBasicBlock fuel') Succs Passed
      end
  end.

(** [InterruptContext::examineBlock] *)
Definition examineBlock (fuel : nat) (Block : BasicBlock) : Visit bool :=
  examineBlock_loop (traverseFunction fuel) (instructions M Block) true.

(** [InterruptContext::runOnModule] *)
Definition runOnModule (fuel : nat) : Visit bool :=
  match getFunction M (SourceFunction cfg) with
  | Some Source => traverseFunction fuel Source ;;; ret false
  | None => ret false
  end.

(** ** Vocabulary of the properties *)

(** The name a function is classified and reported under. *)
Definition displayName (F : Function) : string :=
  match cxa_demangle (getName M F) with
  | Some DemangledName => DemangledName
  | None => getName M F
  end.

Definition successors (Block : BasicBlock) : list (option BasicBlock) :=
  match getTerminator M Block with
  | Some Succs => Succs
  | None => []
  end.

(** [block_reach B B']: control can flow from [B] to [B'] along successor
    edges. *)
Inductive block_reach : BasicBlock → BasicBlock → Prop :=
  | block_reach_refl B : block_reach B B
  | block_reach_step B B' B'' :
      In (Some B') (successors B) → block_reach B' B'' → block_reach B B''.

(** [calls F G]: a block reachable from the entry block of [F] holds a
    direct call of [G]. *)
Definition calls (F G : Function) : Prop :=
  ∃ B B', getEntryBlock M F = Some B ∧ block_reach B B' ∧
          In (CallInst (Some G)) (instructions M B').

(** [violation_path F p]: [p] is a path of the call graph that starts at
    [F], passes only through functions that are neither sinks nor
    black-listed, and ends at a black-listed function that is not a sink. *)
Inductive violation_path : Function → list Function → Prop :=
  | violation_here F :
      displayName F ∉ SinkFunctionSet cfg →
      displayName F ∈ BlackListSet cfg →
      violation_path F [F]
  | violation_below F G p :
      displayName F ∉ SinkFunctionSet cfg →
      displayName F ∉ BlackListSet cfg →
      calls F G →
      violation_path G p →
      violation_path F (F :: p).

(** ** The traversal as a relation

    [visitF F st log r st']: the call [traverseFunction(F)] in state [st]
    returns [r] in state [st'], and [log] lists what it did.  The other
    three relations do the same for [traverseBasicBlock], for the loop of
    [examineBlock] and for the loop over the successors. *)
Inductive visitF : Function → State → list Event → bool → State → Prop :=
  | visitF_memoized F st :
      F ∈ FuncPtrSet st →
      visitF F st [] true st
  | visitF_sink F st :
      F ∉ FuncPtrSet st →
      displayName F ∈ SinkFunctionSet cfg →
      visitF F st [] true st
  | visitF_blacklisted F st :
      F ∉ FuncPtrSet st →
      displayName F ∉ SinkFunctionSet cfg →
      displayName F ∈ BlackListSet cfg →
      visitF F st [EvReport (FunctionChain st ++ [displayName F])] false
        (write (report_text (FunctionChain st ++ [displayName F])) st)
  | visitF_declaration F st :
      F ∉ FuncPtrSet st →
      displayName F ∉ SinkFunctionSet cfg →
      displayName F ∉ BlackListSet cfg →
      getEntryBlock M F = None →
      visitF F st [EvFunction F] true (insert_function F st)
  | visitF_body F st FirstBlock log r st' :
      F ∉ FuncPtrSet st →
      displayName F ∉ SinkFunctionSet cfg →
      displayName F ∉ BlackListSet cfg →
      getEntryBlock M F = Some FirstBlock →
      visitB FirstBlock (insert_function F (push_back (displayName F) st))
        log r st' →
      visitF F st (EvFunction F :: log) r (pop_back st')
with visitB : BasicBlock → State → list Event → bool → State → Prop :=
  | visitB_memoized Block st :
      Block ∈ BasicBlockPtrSet st →
      visitB Block st [] true st
  | visitB_examined Block st log1 r1 st1 log2 r st' :
      Block ∉ BasicBlockPtrSet st →
      examineI (instructions M Block) true (insert_block Block st)
        log1 r1 st1 →
      visitS (successors Block) r1 st1 log2 r st' →
      visitB Block st (EvBlock Block :: log1 ++ log2) r st'
with examineI :
    list Instruction → bool → State → list Event → bool → State → Prop :=
  | examineI_end Passed st :
      examineI [] Passed st [] Passed st
  | examineI_call F Insts Passed st log1 r1 st1 log2 r st' :
      visitF F st log1 r1 st1 →
      examineI Insts (Passed && r1) st1 log2 r st' →
      examineI (CallInst (Some F) :: Insts) Passed st (log1 ++ log2) r st'
  | examineI_indirect Insts Passed st log r st' :
      examineI Insts Passed st log r st' →
      examineI (CallInst None :: Insts) Passed st log r st'
  | examineI_other Insts Passed st log r st' :
      examineI Insts Passed st log r st' →
      examineI (OtherInst :: Insts) Passed st log r st'
with visitS :
    list (option BasicBlock) → bool → State → list Event → bool → State
    → Prop :=
  | visitS_end Passed st :
      visitS [] Passed st [] Passed st
  | visitS_block SuccBlock Succs Passed st log1 r1 st1 log2 r st' :
      visitB SuccBlock st log1 r1 st1 →
      visitS Succs (Passed && r1) st1 log2 r st' →
      visitS (Some SuccBlock :: Succs) Passed st (log1 ++ log2) r st'
  | visitS_null Succs Passed st log r st' :
      visitS Succs Passed st log r st' →
      visitS (None :: Succs) Passed st log r st'.

Scheme visitF_mut := Minimality for visitF Sort Prop
  with visitB_mut := Minimality for visitB Sort Prop
  with examineI_mut := Minimality for examineI Sort Prop
  with visitS_mut := Minimality for visitS Sort Prop.

Combined Scheme visit_mutind
  from visitF_mut, visitB_mut, examineI_mut, visitS_mut.

(** ** What a visit leaves unchanged *)

(** The chain is restored, the two pointer sets only grow, and the text
    written is the text of the reports of the log. *)
Record frame (st : State) (log : list Event) (st' : State) : Prop := {
  frame_chain : FunctionChain st' = FunctionChain st;
  frame_functions : FuncPtrSet st ⊆ FuncPtrSet st';
  frame_blocks : BasicBlockPtrSet st ⊆ BasicBlockPtrSet st';
  frame_errs : errs st' = errs st +:+ reports_text (reported log);
}.

(** ** Finite programs

    A module has finitely many functions and blocks: [Uf] and [Ub] hold
    every function and block the traversal can meet. *)
Record closed_universe (Uf : gset Function) (Ub : gset BasicBlock) : Prop := {
  closed_entry F B :
    F ∈ Uf → getEntryBlock M F = Some B → B ∈ Ub;
  closed_call B F :
    B ∈ Ub → In (CallInst (Some F)) (instructions M B) → F ∈ Uf;
  closed_successor B B' :
    B ∈ Ub → In (Some B') (successors B) → B' ∈ Ub;
}.

(** The functions and blocks of the universe not visited yet. *)
Definition unvisited (Uf : gset Function) (Ub : gset BasicBlock)
    (st : State) : nat :=
  size (Uf ∖ FuncPtrSet st) + size (Ub ∖ BasicBlockPtrSet st).

(** The functions and blocks of [log] are those that were not in the
    pointer sets before and are after, each of them once. *)
Record fresh (st : State) (log : list Event) (st' : State) : Prop := {
  fresh_functions_once : NoDup (entered_functions log);
  fresh_blocks_once : NoDup (entered_blocks log);
  fresh_functions F :
    F ∈ entered_functions log ↔ F ∈ FuncPtrSet st' ∧ F ∉ FuncPtrSet st;
  fresh_blocks B :
    B ∈ entered_blocks log
    ↔ B ∈ BasicBlockPtrSet st' ∧ B ∉ BasicBlockPtrSet st;
}.

(** [chain_from prefix F chain]: [chain] is [prefix] followed by the display
    names along a violation path from [F]. *)
Definition chain_from (prefix : list string) (F : Function)
    (chain : list string) : Prop :=
  ∃ p, violation_path F p ∧ chain = prefix ++ map displayName p.

(** The same for a chain reported below a call in a block reachable
    from [B]. *)
Definition chain_from_block (prefix : list string) (B : BasicBlock)
    (chain : list string) : Prop :=
  ∃ B' G, block_reach B B' ∧ In (CallInst (Some G)) (instructions M B') ∧
          chain_from prefix G chain.

(** [last_only Name names]: nothing follows an entry [Name] of [names]. *)
Definition last_only (Name : string) (names : list string) : Prop :=
  ∀ before after, names = before ++ Name :: after → after = [].

(** [visited_as st r st' Name]: the visit from [st] to [st'] with
    result [r] tested the sink set and the black list with [Name], and
    every chain it reported holds [Name] right after the chain it began
    with. *)
Definition visited_as (st : State) (r : bool) (st' : State)
    (Name : string) : Prop :=
  (Name ∈ SinkFunctionSet cfg → r = true ∧ st' = st) ∧
  (Name ∉ SinkFunctionSet cfg → Name ∈ BlackListSet cfg →
     r = false ∧
     st' = write (report_line (FunctionChain st ++ [Name])) st) ∧
  (Name ∉ SinkFunctionSet cfg →
     ∃ chains, errs st' = errs st +:+ lines_text (map report_line chains) ∧
       Forall (λ chain, (FunctionChain st ++ [Name]) `prefix_of` chain)
         chains).

(** ** Blocks belong to functions

    In a module every block has a parent function: the entry block of a
    function belongs to it, and a branch stays inside the function. *)
Record owned_blocks (parent : BasicBlock → Function) : Prop := {
  owned_entry F B : getEntryBlock M F = Some B → parent B = F;
  owned_successor B B' :
    In (Some B') (successors B) → parent B' = parent B;
}.

(** Only blocks of visited functions are visited. *)
Definition blocks_within (parent : BasicBlock → Function) (st : State)
    : Prop :=
  ∀ B, B ∈ BasicBlockPtrSet st → parent B ∈ FuncPtrSet st.

(** [examined_here X chain log st' B]: the successors of [B] are visited in
    [st'], and if [B] calls [X] then [log] reports [chain] followed by the
    name of [X]. *)
Definition examined_here (X : Function) (chain : list string)
    (log : list Event) (st' : State) (B : BasicBlock) : Prop :=
  (∀ B', In (Some B') (successors B) → B' ∈ BasicBlockPtrSet st') ∧
  (In (CallInst (Some X)) (instructions M B) →
   In (chain ++ [displayName X]) (reported log)).

(** The blocks visited between [st] and [st'] belong to functions that
    were not visited in [st]. *)
Definition new_blocks_foreign (parent : BasicBlock → Function)
    (st st' : State) : Prop :=
  ∀ B, B ∈ BasicBlockPtrSet st' → B ∉ BasicBlockPtrSet st →
       parent B ∉ FuncPtrSet st.

(** The blocks visited between [st] and [st'] are blocks of [K] examined
    under the chain of [st], or belong to functions that were not visited
    in [st]. *)
Definition new_blocks_examined (parent : BasicBlock → Function)
    (X K : Function) (st : State) (log : list Event) (st' : State) : Prop :=
  ∀ B, B ∈ BasicBlockPtrSet st' → B ∉ BasicBlockPtrSet st →
       parent B = K ∧ examined_here X (FunctionChain st) log st' B ∨
       parent B ∉ FuncPtrSet st.

(** The blocks visited are blocks of visited functions, and [X] is not a
    visited function. *)
Definition tracked (parent : BasicBlock → Function) (X : Function)
    (st : State) : Prop :=
  blocks_within parent st ∧ X ∉ FuncPtrSet st.

(** ** Vocabulary of the further properties *)

(** A function is ordinary when its display name is neither a sink nor
    black-listed: these are the functions whose bodies are explored. *)
Definition ordinary (F : Function) : Prop :=
  (displayName F ∉ SinkFunctionSet cfg) ∧ displayName F ∉ BlackListSet cfg.

(** A callee needs no further visit: it is memoized, a sink or
    black-listed. *)
Definition handled (st : State) (G : Function) : Prop :=
  G ∈ FuncPtrSet st ∨ displayName G ∈ SinkFunctionSet cfg ∨
  displayName G ∈ BlackListSet cfg.

(** [explores F G]: [G] is an ordinary function reached from the ordinary
    function [F] through calls of ordinary functions. *)
Inductive explores : Function → Function → Prop :=
  | explores_here F : ordinary F → explores F F
  | explores_call F G H :
      ordinary F → calls F G → explores G H → explores F H.

(** [explored GF GB st]: apart from the functions [GF] and the blocks [GB]
    still on the stack, the entry block of every visited function is
    visited, and every visited block has its successors visited and its
    direct callees handled. *)
Record explored (GF : gset Function) (GB : gset BasicBlock) (st : State)
    : Prop := {
  explored_entry G B :
    G ∈ FuncPtrSet st → G ∉ GF → getEntryBlock M G = Some B →
    B ∈ BasicBlockPtrSet st;
  explored_successor B B' :
    B ∈ BasicBlockPtrSet st → B ∉ GB → In (Some B') (successors B) →
    B' ∈ BasicBlockPtrSet st;
  explored_call B G :
    B ∈ BasicBlockPtrSet st → B ∉ GB →
    In (CallInst (Some G)) (instructions M B) → handled st G;
}.


(** [explores_block F B]: [B] is reachable from the entry block of a
    function that [F] explores. *)
Definition explores_block (F : Function) (B : BasicBlock) : Prop :=
  ∃ G B0, explores F G ∧ getEntryBlock M G = Some B0 ∧ block_reach B0 B.


(** [simple_chain_from st F chain]: [chain] is the chain of [st] followed
    by the display names along a violation path from [F] on which no
    function appears twice and no ordinary function was visited in
    [st]. *)
Definition simple_chain_from (st : State) (F : Function)
    (chain : list string) : Prop :=
  ∃ p, violation_path F p ∧ NoDup p ∧
       (∀ H, H ∈ p → ordinary H → H ∉ FuncPtrSet st) ∧
       chain = FunctionChain st ++ map displayName p.


(** ** Text and state lemmas *)

Lemma append_assoc (a b c : string) : (a +:+ b) +:+ c = a +:+ (b +:+ c).
Proof.
  induction a as [|x a IH]; [reflexivity|].
  change (String x ((a +:+ b) +:+ c) = String x (a +:+ (b +:+ c))).
  by rewrite IH.
Qed.

Lemma append_nil_r (a : string) : a +:+ "" = a.
Proof.
  induction a as [|x a IH]; [reflexivity|].
  change (String x (a +:+ "") = String x a). by rewrite IH.
Qed.

Lemma write_write (a b : string) (st : State) :
  write b (write a st) = write (a +:+ b) st.
Proof. unfold write; simpl. by rewrite append_assoc. Qed.

Lemma write_nil (st : State) : write "" st = st.
Proof. destruct st; unfold write; simpl. by rewrite append_nil_r. Qed.

Lemma pop_back_push_back (Name : string) (st : State) :
  pop_back (push_back Name st) = st.
Proof. destruct st; unfold pop_back, push_back; simpl. by rewrite removelast_last. Qed.

Lemma pop_back_write_push_back (Name s : string) (st : State) :
  pop_back (write s (push_back Name st)) = write s st.
Proof. unfold pop_back, write, push_back; simpl. by rewrite removelast_last. Qed.

Lemma warnOnCallChain_loop_text (chain : list string) (st : State) :
  warnOnCallChain_loop chain st = Some (tt, write (chain_text chain) st).
Proof.
  revert st. induction chain as [|F chain IH]; intros st; simpl.
  - by rewrite write_nil.
  - unfold bind, modify. by rewrite IH, !write_write, ?append_assoc.
Qed.

Lemma warnOnCallChain_text (st : State) :
  warnOnCallChain st = Some (tt, write (report_text (FunctionChain st)) st).
Proof.
  unfold warnOnCallChain, bind, modify, get.
  change (FunctionChain (write _ st)) with (FunctionChain st).
  rewrite warnOnCallChain_loop_text, !write_write.
  unfold report_text. by rewrite ?append_assoc.
Qed.

Lemma chain_text_concat (F : string) (chain : list string) :
  chain_text (F :: chain) = " " +:+ String.concat " " (F :: chain).
Proof.
  revert F. induction chain as [|G chain IH]; intros F.
  - simpl. by rewrite append_nil_r.
  - change (chain_text (F :: G :: chain))
      with (" " +:+ F +:+ chain_text (G :: chain)).
    rewrite IH. reflexivity.
Qed.

Lemma report_text_line (chain : list string) :
  chain ≠ [] → report_text chain = report_line chain.
Proof.
  destruct chain as [|F chain]; [done|]. intros _.
  unfold report_text, report_line. rewrite chain_text_concat.
  by rewrite <- !append_assoc.
Qed.

(** ** Unfolding the traversal *)

Lemma traverseFunction_unfold (fuel : nat) (F : Function) (st : State) :
  traverseFunction (S fuel) F st =
    if decide (F ∈ FuncPtrSet st) then Some (true, st)
    else if decide (displayName F ∈ SinkFunctionSet cfg) then Some (true, st)
    else if decide (displayName F ∈ BlackListSet cfg) then
      Some (false,
            write (report_text (FunctionChain st ++ [displayName F])) st)
    else
      match getEntryBlock M F with
      | Some FirstBlock =>
          match traverseBasicBlock fuel FirstBlock
                  (insert_function F (push_back (displayName F) st)) with
          | Some (Passed, st') => Some (Passed, pop_back st')
          | None => None
          end
      | None => Some (true, insert_function F st)
      end.
Proof.
  simpl. unfold bind at 1. unfold get at 1. fold (displayName F).
  destruct (decide (F ∈ FuncPtrSet st)); [reflexivity|].
  destruct (decide (displayName F ∈ SinkFunctionSet cfg)); [reflexivity|].
  unfold bind at 1. unfold modify at 1.
  destruct (decide (displayName F ∈ BlackListSet cfg)).
  - unfold bind, modify, ret. rewrite warnOnCallChain_text.
    by rewrite pop_back_write_push_back.
  - unfold bind, modify, ret.
    destruct (getEntryBlock M F) as [FirstBlock|].
    + by destruct (traverseBasicBlock fuel FirstBlock _) as [[??]|].
    + do 2 f_equal. destruct st; unfold pop_back, insert_function, push_back; simpl.
      by rewrite removelast_last.
Qed.

Lemma traverseBasicBlock_unfold (fuel : nat) (Block : BasicBlock) (st : State) :
  traverseBasicBlock (S fuel) Block st =
    if decide (Block ∈ BasicBlockPtrSet st) then Some (true, st)
    else
      match examineBlock fuel Block (insert_block Block st) with
      | Some (Passed, st1) =>
          successors_loop (traverseBasicBlock fuel) (successors Block)
            Passed st1
      | None => None
      end.
Proof.
  simpl. unfold bind at 1. unfold get at 1.
  destruct (decide (Block ∈ BasicBlockPtrSet st)); [reflexivity|].
  unfold bind, modify, examineBlock, successors.
  destruct (examineBlock_loop _ _ _ _) as [[Passed st1]|]; [|reflexivity].
  by destruct (getTerminator M Block).
Qed.

Lemma examineBlock_loop_unfold traverse (Insts : list Instruction)
    (Passed : bool) (st : State) :
  examineBlock_loop traverse Insts Passed st =
    match Insts with
    | [] => Some (Passed, st)
    | CallInst (Some F) :: Insts' =>
        match traverse F st with
        | Some (r, st1) => examineBlock_loop traverse Insts' (Passed && r) st1
        | None => None
        end
    | _ :: Insts' => examineBlock_loop traverse Insts' Passed st
    end.
Proof. by destruct Insts as [|[[F|]|] Insts']. Qed.

Lemma successors_loop_unfold traverse (Succs : list (option BasicBlock))
    (Passed : bool) (st : State) :
  successors_loop traverse Succs Passed st =
    match Succs with
    | [] => Some (Passed, st)
    | Some SuccBlock :: Succs' =>
        match traverse SuccBlock st with
        | Some (r, st1) => successors_loop traverse Succs' (Passed && r) st1
        | None => None
        end
    | None :: Succs' => successors_loop traverse Succs' Passed st
    end.
Proof. by destruct Succs as [|[B|] Succs']. Qed.


(** ** Every run of the code is a derivation of the relation *)

Lemma examineBlock_loop_visit traverse :
  (∀ F st r st', traverse F st = Some (r, st') → ∃ log, visitF F st log r st') →
  ∀ Insts Passed st r st',
    examineBlock_loop traverse Insts Passed st = Some (r, st') →
    ∃ log, examineI Insts Passed st log r st'.
Proof.
  intros Htr Insts.
  induction Insts as [|[[F|]|] Insts IH]; intros Passed st r st' Hrun;
    rewrite examineBlock_loop_unfold in Hrun.
  - injection Hrun as <- <-. eexists; constructor.
  - destruct (traverse F st) as [[r1 st1]|] eqn:HF; [|done].
    destruct (Htr _ _ _ _ HF) as [log1 H1].
    destruct (IH _ _ _ _ Hrun) as [log2 H2].
    eexists; econstructor; eassumption.
  - destruct (IH _ _ _ _ Hrun) as [log H]. eexists; constructor; eassumption.
  - destruct (IH _ _ _ _ Hrun) as [log H]. eexists; constructor; eassumption.
Qed.

Lemma successors_loop_visit traverse :
  (∀ B st r st', traverse B st = Some (r, st') → ∃ log, visitB B st log r st') →
  ∀ Succs Passed st r st',
    successors_loop traverse Succs Passed st = Some (r, st') →
    ∃ log, visitS Succs Passed st log r st'.
Proof.
  intros Htr Succs.
  induction Succs as [|[B|] Succs IH]; intros Passed st r st' Hrun;
    rewrite successors_loop_unfold in Hrun.
  - injection Hrun as <- <-. eexists; constructor.
  - destruct (traverse B st) as [[r1 st1]|] eqn:HB; [|done].
    destruct (Htr _ _ _ _ HB) as [log1 H1].
    destruct (IH _ _ _ _ Hrun) as [log2 H2].
    eexists; econstructor; eassumption.
  - destruct (IH _ _ _ _ Hrun) as [log H]. eexists; constructor; eassumption.
Qed.

Lemma traverse_visit (fuel : nat) :
  (∀ F st r st', traverseFunction fuel F st = Some (r, st') →
     ∃ log, visitF F st log r st') ∧
  (∀ B st r st', traverseBasicBlock fuel B st = Some (r, st') →
     ∃ log, visitB B st log r st').
Proof.
  induction fuel as [|fuel [IHF IHB]]; [by split|]. split.
  - intros F st r st'. rewrite traverseFunction_unfold.
    destruct (decide (F ∈ FuncPtrSet st));
      [intros [= <- <-]; eexists; by apply visitF_memoized|].
    destruct (decide (displayName F ∈ SinkFunctionSet cfg));
      [intros [= <- <-]; eexists; by apply visitF_sink|].
    destruct (decide (displayName F ∈ BlackListSet cfg));
      [intros [= <- <-]; eexists; by apply visitF_blacklisted|].
    destruct (getEntryBlock M F) as [FirstBlock|] eqn:Hentry.
    + destruct (traverseBasicBlock fuel FirstBlock _) as [[r1 st1]|] eqn:Hb;
        [|done].
      intros [= <- <-]. destruct (IHB _ _ _ _ Hb) as [log Hlog].
      eexists; by eapply visitF_body.
    + intros [= <- <-]. eexists; by apply visitF_declaration.
  - intros B st r st'. rewrite traverseBasicBlock_unfold.
    destruct (decide (B ∈ BasicBlockPtrSet st));
      [intros [= <- <-]; eexists; by apply visitB_memoized|].
    destruct (examineBlock fuel B _) as [[r1 st1]|] eqn:Hex; [|done].
    intros Hsucc.
    destruct (examineBlock_loop_visit _ IHF _ _ _ _ _ Hex) as [log1 H1].
    destruct (successors_loop_visit _ IHB _ _ _ _ _ Hsucc) as [log2 H2].
    eexists; by eapply visitB_examined.
Qed.

Lemma traverseFunction_visit fuel F st r st' :
  traverseFunction fuel F st = Some (r, st') → ∃ log, visitF F st log r st'.
Proof. apply traverse_visit. Qed.

Lemma traverseBasicBlock_visit fuel B st r st' :
  traverseBasicBlock fuel B st = Some (r, st') → ∃ log, visitB B st log r st'.
Proof. apply traverse_visit. Qed.

(** ** More fuel does not change a result *)

Lemma examineBlock_loop_mono (t1 t2 : Function → Visit bool) :
  (∀ F st x, t1 F st = Some x → t2 F st = Some x) →
  ∀ Insts Passed st x,
    examineBlock_loop t1 Insts Passed st = Some x →
    examineBlock_loop t2 Insts Passed st = Some x.
Proof.
  intros Ht Insts.
  induction Insts as [|[[F|]|] Insts IH]; intros Passed st x;
    [done| |apply IH..].
  rewrite !(examineBlock_loop_unfold _ (_ :: _)).
  destruct (t1 F st) as [[r1 st1]|] eqn:HF; [|done].
  rewrite (Ht _ _ _ HF). auto.
Qed.

Lemma successors_loop_mono (t1 t2 : BasicBlock → Visit bool) :
  (∀ B st x, t1 B st = Some x → t2 B st = Some x) →
  ∀ Succs Passed st x,
    successors_loop t1 Succs Passed st = Some x →
    successors_loop t2 Succs Passed st = Some x.
Proof.
  intros Ht Succs.
  induction Succs as [|[B|] Succs IH]; intros Passed st x;
    [done| |apply IH].
  rewrite !(successors_loop_unfold _ (_ :: _)).
  destruct (t1 B st) as [[r1 st1]|] eqn:HB; [|done].
  rewrite (Ht _ _ _ HB). auto.
Qed.

Lemma traverse_fuel_S (fuel : nat) :
  (∀ F st x, traverseFunction fuel F st = Some x →
     traverseFunction (S fuel) F st = Some x) ∧
  (∀ B st x, traverseBasicBlock fuel B st = Some x →
     traverseBasicBlock (S fuel) B st = Some x).
Proof.
  induction fuel as [|fuel [IHF IHB]]; [by split|]. split.
  - intros F st x. rewrite !(traverseFunction_unfold _ F).
    repeat case_decide; try done.
    destruct (getEntryBlock M F) as [FirstBlock|]; [|done].
    destruct (traverseBasicBlock fuel FirstBlock _) as [[r1 st1]|] eqn:Hb;
      [|done].
    by rewrite (IHB _ _ _ Hb).
  - intros B st x. rewrite !(traverseBasicBlock_unfold _ B).
    case_decide; [done|]. unfold examineBlock.
    destruct (examineBlock_loop (traverseFunction fuel) _ _ _)
      as [[r1 st1]|] eqn:Hex; [|done].
    rewrite (examineBlock_loop_mono _ _ IHF _ _ _ _ Hex).
    apply successors_loop_mono, IHB.
Qed.

Lemma traverseFunction_fuel_le (n m : nat) F st x :
  n ≤ m → traverseFunction n F st = Some x → traverseFunction m F st = Some x.
Proof.
  induction 1 as [|m _ IH]; [done|].
  intros H. by apply traverse_fuel_S, IH.
Qed.

Lemma traverseFunction_fuel_irrelevant (n m : nat) F st x y :
  traverseFunction n F st = Some x → traverseFunction m F st = Some y → x = y.
Proof.
  intros Hn Hm.
  apply (traverseFunction_fuel_le n (n `max` m)) in Hn; [|lia].
  apply (traverseFunction_fuel_le m (n `max` m)) in Hm; [|lia].
  congruence.
Qed.


(** ** What every visit leaves unchanged *)

Lemma reports_text_app (a b : list (list string)) :
  reports_text (a ++ b) = reports_text a +:+ reports_text b.
Proof.
  induction a as [|c a IH]; [reflexivity|].
  simpl. by rewrite IH, append_assoc.
Qed.

Lemma reported_app (a b : list Event) :
  reported (a ++ b) = reported a ++ reported b.
Proof. apply omap_app. Qed.

Lemma frame_refl (st : State) : frame st [] st.
Proof. split; try done. simpl. by rewrite append_nil_r. Qed.

Lemma frame_trans st log1 st1 log2 st2 :
  frame st log1 st1 → frame st1 log2 st2 → frame st (log1 ++ log2) st2.
Proof.
  intros [] []. split.
  - congruence.
  - set_solver.
  - set_solver.
  - rewrite reported_app, reports_text_app, <- append_assoc. congruence.
Qed.

Lemma frame_insert_function F st : frame st [EvFunction F] (insert_function F st).
Proof. split; simpl; try done; [set_solver|by rewrite append_nil_r]. Qed.

Lemma frame_insert_block B st : frame st [EvBlock B] (insert_block B st).
Proof. split; simpl; try done; [set_solver|by rewrite append_nil_r]. Qed.

Lemma visit_frame :
  (∀ F st log r st', visitF F st log r st' → frame st log st') ∧
  (∀ B st log r st', visitB B st log r st' → frame st log st') ∧
  (∀ Insts P st log r st', examineI Insts P st log r st' → frame st log st') ∧
  (∀ Succs P st log r st', visitS Succs P st log r st' → frame st log st').
Proof.
  apply visit_mutind.
  - (* memoized *) intros; apply frame_refl.
  - (* sink *) intros; apply frame_refl.
  - (* black-listed *)
    intros F st _ _ _. split; simpl; try done. by rewrite append_nil_r.
  - (* declaration *) intros F st _ _ _ _. apply frame_insert_function.
  - (* body *)
    intros F st FirstBlock log r st' _ _ _ _ _ [Hc Hf Hb He].
    simpl in *. split; simpl.
    + by rewrite Hc, removelast_last.
    + set_solver.
    + done.
    + done.
  - (* block memoized *) intros; apply frame_refl.
  - (* block examined *)
    intros B st log1 r1 st1 log2 r st' _ _ IH1 _ IH2.
    apply (frame_trans _ [EvBlock B] (insert_block B st));
      [apply frame_insert_block|by eapply frame_trans].
  - (* end of the instructions *) intros; apply frame_refl.
  - (* direct call *) intros; by eapply frame_trans.
  - (* indirect call *) intros; done.
  - (* other instruction *) intros; done.
  - (* end of the successors *) intros; apply frame_refl.
  - (* successor *) intros; by eapply frame_trans.
  - (* null successor *) intros; done.
Qed.


(** ** Each function and each block is entered at most once *)

Lemma entered_functions_app (a b : list Event) :
  entered_functions (a ++ b) = entered_functions a ++ entered_functions b.
Proof. apply omap_app. Qed.

Lemma entered_blocks_app (a b : list Event) :
  entered_blocks (a ++ b) = entered_blocks a ++ entered_blocks b.
Proof. apply omap_app. Qed.

Lemma fresh_refl (st : State) : fresh st [] st.
Proof. split; simpl; try apply NoDup_nil_2; set_solver. Qed.

Lemma fresh_app st log1 st1 log2 st2 :
  FuncPtrSet st ⊆ FuncPtrSet st1 → FuncPtrSet st1 ⊆ FuncPtrSet st2 →
  BasicBlockPtrSet st ⊆ BasicBlockPtrSet st1 →
  BasicBlockPtrSet st1 ⊆ BasicBlockPtrSet st2 →
  fresh st log1 st1 → fresh st1 log2 st2 → fresh st (log1 ++ log2) st2.
Proof.
  intros Hf1 Hf2 Hb1 Hb2 [Nf1 Nb1 Ef1 Eb1] [Nf2 Nb2 Ef2 Eb2].
  split.
  - rewrite entered_functions_app. apply NoDup_app. split_and!; [done| |done].
    intros F HF1 HF2. apply Ef1 in HF1. apply Ef2 in HF2. tauto.
  - rewrite entered_blocks_app. apply NoDup_app. split_and!; [done| |done].
    intros B HB1 HB2. apply Eb1 in HB1. apply Eb2 in HB2. tauto.
  - intros F. rewrite entered_functions_app, elem_of_app, Ef1, Ef2.
    destruct (decide (F ∈ FuncPtrSet st1)); set_solver.
  - intros B. rewrite entered_blocks_app, elem_of_app, Eb1, Eb2.
    destruct (decide (B ∈ BasicBlockPtrSet st1)); set_solver.
Qed.

Lemma fresh_insert_function F st :
  F ∉ FuncPtrSet st → fresh st [EvFunction F] (insert_function F st).
Proof.
  intros HF. split; simpl; try apply NoDup_nil_2.
  - apply NoDup_singleton.
  - intros G. rewrite list_elem_of_singleton. set_solver.
  - set_solver.
Qed.

Lemma fresh_insert_block B st :
  B ∉ BasicBlockPtrSet st → fresh st [EvBlock B] (insert_block B st).
Proof.
  intros HB. split; simpl; try apply NoDup_nil_2.
  - apply NoDup_singleton.
  - set_solver.
  - intros B'. rewrite list_elem_of_singleton. set_solver.
Qed.

Lemma fresh_trans st log1 st1 log2 st2 :
  frame st log1 st1 → frame st1 log2 st2 →
  fresh st log1 st1 → fresh st1 log2 st2 → fresh st (log1 ++ log2) st2.
Proof. intros [] []. by apply fresh_app. Qed.

Lemma visit_fresh :
  (∀ F st log r st', visitF F st log r st' → fresh st log st') ∧
  (∀ B st log r st', visitB B st log r st' → fresh st log st') ∧
  (∀ Insts P st log r st', examineI Insts P st log r st' → fresh st log st') ∧
  (∀ Succs P st log r st', visitS Succs P st log r st' → fresh st log st').
Proof.
  pose proof visit_frame as (FrF & FrB & FrI & FrS).
  apply visit_mutind.
  - (* memoized *) intros; apply fresh_refl.
  - (* sink *) intros; apply fresh_refl.
  - (* black-listed *)
    intros F st _ _ _. split; simpl; try apply NoDup_nil_2; set_solver.
  - (* declaration *) intros F st HF _ _ _. by apply fresh_insert_function.
  - (* body *)
    intros F st FirstBlock log r st' HF _ _ _ Hvisit [Nf Nb Ef Eb].
    apply FrB in Hvisit as [_ Hf Hb _].
    apply (fresh_app st [EvFunction F] (insert_function F st) log (pop_back st'));
      [set_solver..| |by split].
    by apply fresh_insert_function.
  - (* block memoized *) intros; apply fresh_refl.
  - (* block examined *)
    intros B st log1 r1 st1 log2 r st' HB Hex IH1 Hsucc IH2.
    apply (fresh_trans _ [EvBlock B] (insert_block B st));
      eauto using frame_insert_block, fresh_insert_block, frame_trans,
                  fresh_trans.
  - (* end of the instructions *) intros; apply fresh_refl.
  - (* direct call *) intros; eauto using fresh_trans.
  - (* indirect call *) intros; done.
  - (* other instruction *) intros; done.
  - (* end of the successors *) intros; apply fresh_refl.
  - (* successor *) intros; eauto using fresh_trans.
  - (* null successor *) intros; done.
Qed.

(** ** Termination *)

Section Termination.

Variables (Uf : gset Function) (Ub : gset BasicBlock).
Hypothesis closed : closed_universe Uf Ub.

Lemma unvisited_frame st log st' :
  frame st log st' → unvisited Uf Ub st' ≤ unvisited Uf Ub st.
Proof.
  intros [_ Hf Hb _]. unfold unvisited.
  apply Nat.add_le_mono; apply subseteq_size; set_solver.
Qed.

Lemma unvisited_insert_function F Name st :
  F ∈ Uf → F ∉ FuncPtrSet st →
  unvisited Uf Ub (insert_function F (push_back Name st)) < unvisited Uf Ub st.
Proof.
  intros HU HF. unfold unvisited; simpl.
  apply Nat.add_lt_mono_r, subset_size. set_solver.
Qed.

Lemma unvisited_insert_block B st :
  B ∈ Ub → B ∉ BasicBlockPtrSet st →
  unvisited Uf Ub (insert_block B st) < unvisited Uf Ub st.
Proof.
  intros HU HB. unfold unvisited; simpl.
  apply Nat.add_lt_mono_l, subset_size. set_solver.
Qed.

Lemma examineBlock_loop_terminates (fuel : nat) :
  (∀ F st, F ∈ Uf → unvisited Uf Ub st < fuel →
     is_Some (traverseFunction fuel F st)) →
  ∀ Insts Passed st,
    (∀ F, In (CallInst (Some F)) Insts → F ∈ Uf) →
    unvisited Uf Ub st < fuel →
    is_Some (examineBlock_loop (traverseFunction fuel) Insts Passed st).
Proof.
  intros Hterm Insts.
  induction Insts as [|[[F|]|] Insts IH]; intros Passed st Hin Hlt;
    [done| |apply IH; [intros G HG; apply Hin; by right|done]..].
  rewrite examineBlock_loop_unfold.
  destruct (Hterm F st) as [[r1 st1] HF]; [apply Hin; by left|done|].
  rewrite HF. apply IH; [intros G HG; apply Hin; by right|].
  apply traverseFunction_visit in HF as [log HF].
  apply visit_frame, unvisited_frame in HF. lia.
Qed.

Lemma successors_loop_terminates (fuel : nat) :
  (∀ B st, B ∈ Ub → unvisited Uf Ub st < fuel →
     is_Some (traverseBasicBlock fuel B st)) →
  ∀ Succs Passed st,
    (∀ B, In (Some B) Succs → B ∈ Ub) →
    unvisited Uf Ub st < fuel →
    is_Some (successors_loop (traverseBasicBlock fuel) Succs Passed st).
Proof.
  intros Hterm Succs.
  induction Succs as [|[B|] Succs IH]; intros Passed st Hin Hlt;
    [done| |apply IH; [intros G HG; apply Hin; by right|done]].
  rewrite successors_loop_unfold.
  destruct (Hterm B st) as [[r1 st1] HB]; [apply Hin; by left|done|].
  rewrite HB. apply IH; [intros G HG; apply Hin; by right|].
  apply traverseBasicBlock_visit in HB as [log HB].
  apply visit_frame, unvisited_frame in HB. lia.
Qed.

Lemma traverse_terminates (fuel : nat) :
  (∀ F st, F ∈ Uf → unvisited Uf Ub st < fuel →
     is_Some (traverseFunction fuel F st)) ∧
  (∀ B st, B ∈ Ub → unvisited Uf Ub st < fuel →
     is_Some (traverseBasicBlock fuel B st)).
Proof.
  induction fuel as [|fuel [IHF IHB]]; [split; intros; lia|]. split.
  - intros F st HU Hlt. rewrite traverseFunction_unfold.
    case_decide as HF; [done|]. repeat case_decide; try done.
    destruct (getEntryBlock M F) as [FirstBlock|] eqn:Hentry; [|done].
    destruct (IHB FirstBlock (insert_function F (push_back (displayName F) st)))
      as [[r1 st1] Hb].
    + by eapply closed_entry.
    + pose proof (unvisited_insert_function F (displayName F) st HU HF). lia.
    + by rewrite Hb.
  - intros B st HU Hlt. rewrite traverseBasicBlock_unfold.
    case_decide as HB; [done|].
    pose proof (unvisited_insert_block B st HU HB) as Hlt'.
    destruct (examineBlock_loop_terminates fuel IHF (instructions M B) true
                (insert_block B st)) as [[r1 st1] Hex].
    + intros F HF. by eapply closed_call.
    + lia.
    + unfold examineBlock. rewrite Hex.
      apply successors_loop_terminates; [done| |].
      * intros B' HB'. by eapply closed_successor.
      * apply examineBlock_loop_visit in Hex as [log Hex];
          [|apply traverseFunction_visit].
        apply visit_frame, unvisited_frame in Hex. lia.
Qed.

End Termination.

(** ** The reported chains are paths of the call graph *)

Lemma block_reach_successor B B' B'' :
  In (Some B') (successors B) → block_reach B' B'' → block_reach B B''.
Proof. apply block_reach_step. Qed.

Lemma visit_reports :
  (∀ F st log r st', visitF F st log r st' →
     Forall (chain_from (FunctionChain st) F) (reported log)) ∧
  (∀ B st log r st', visitB B st log r st' →
     Forall (chain_from_block (FunctionChain st) B) (reported log)) ∧
  (∀ Insts P st log r st', examineI Insts P st log r st' →
     Forall (λ chain, ∃ G, In (CallInst (Some G)) Insts ∧
                           chain_from (FunctionChain st) G chain)
       (reported log)) ∧
  (∀ Succs P st log r st', visitS Succs P st log r st' →
     Forall (λ chain, ∃ B0, In (Some B0) Succs ∧
                            chain_from_block (FunctionChain st) B0 chain)
       (reported log)).
Proof.
  pose proof visit_frame as (FrF & FrB & FrI & FrS).
  apply visit_mutind.
  - (* memoized *) intros; constructor.
  - (* sink *) intros; constructor.
  - (* black-listed *)
    intros F st HF Hsink Hblack. repeat constructor.
    exists [F]. split; [by constructor|done].
  - (* declaration *) intros; constructor.
  - (* body *)
    intros F st FirstBlock log r st' HF Hsink Hblack Hentry _ IH. simpl in *.
    eapply Forall_impl; [exact IH|].
    intros chain (B' & G & Hreach & Hcall & p & Hp & ->).
    exists (F :: p). split.
    + apply violation_below with G; try done. by exists FirstBlock, B'.
    + simpl. by rewrite <- app_assoc.
  - (* block memoized *) intros; constructor.
  - (* block examined *)
    intros B st log1 r1 st1 log2 r st' HB Hex IH1 _ IH2. simpl.
    rewrite reported_app. apply Forall_app. split.
    + eapply Forall_impl; [exact IH1|].
      intros chain (G & Hcall & Hchain). exists B, G.
      split_and!; [constructor|done|done].
    + apply FrI in Hex as [Hchain _ _ _]. rewrite Hchain in IH2.
      eapply Forall_impl; [exact IH2|].
      intros chain (B0 & HB0 & B' & G & Hreach & Hcall & Hfrom).
      exists B', G. split_and!; [|done..]. by eapply block_reach_step.
  - (* end of the instructions *) intros; constructor.
  - (* direct call *)
    intros F Insts P st log1 r1 st1 log2 r st' HF IH1 _ IH2.
    rewrite reported_app. apply Forall_app. split.
    + eapply Forall_impl; [exact IH1|].
      intros chain Hchain. exists F. split; [by left|done].
    + apply FrF in HF as [Hchain _ _ _]. rewrite Hchain in IH2.
      eapply Forall_impl; [exact IH2|].
      intros chain (G & HG & Hfrom). exists G. split; [by right|done].
  - (* indirect call *)
    intros Insts P st log r st' _ IH.
    eapply Forall_impl; [exact IH|].
    intros chain (G & HG & Hfrom). exists G. split; [by right|done].
  - (* other instruction *)
    intros Insts P st log r st' _ IH.
    eapply Forall_impl; [exact IH|].
    intros chain (G & HG & Hfrom). exists G. split; [by right|done].
  - (* end of the successors *) intros; constructor.
  - (* successor *)
    intros B Succs P st log1 r1 st1 log2 r st' HB IH1 _ IH2.
    rewrite reported_app. apply Forall_app. split.
    + eapply Forall_impl; [exact IH1|].
      intros chain Hchain. exists B. split; [by left|done].
    + apply FrB in HB as [Hchain _ _ _]. rewrite Hchain in IH2.
      eapply Forall_impl; [exact IH2|].
      intros chain (B0 & HB0 & Hfrom). exists B0. split; [by right|done].
  - (* null successor *)
    intros Succs P st log r st' _ IH.
    eapply Forall_impl; [exact IH|].
    intros chain (B0 & HB0 & Hfrom). exists B0. split; [by right|done].
Qed.

(** ** The result of a visit *)

Lemma visit_result :
  (∀ F st log r st', visitF F st log r st' →
     r = true ↔ reported log = []) ∧
  (∀ B st log r st', visitB B st log r st' →
     r = true ↔ reported log = []) ∧
  (∀ Insts P st log r st', examineI Insts P st log r st' →
     r = true ↔ P = true ∧ reported log = []) ∧
  (∀ Succs P st log r st', visitS Succs P st log r st' →
     r = true ↔ P = true ∧ reported log = []).
Proof.
  apply visit_mutind; try (intros; simpl; done || tauto).
  - (* block examined *)
    intros B st log1 r1 st1 log2 r st' _ _ IH1 _ IH2. simpl.
    rewrite reported_app, app_nil, IH2, IH1. tauto.
  - (* direct call *)
    intros F Insts P st log1 r1 st1 log2 r st' _ IH1 _ IH2.
    rewrite reported_app, app_nil, IH2, andb_true_iff, IH1. tauto.
  - (* successor *)
    intros B Succs P st log1 r1 st1 log2 r st' _ IH1 _ IH2.
    rewrite reported_app, app_nil, IH2, andb_true_iff, IH1. tauto.
Qed.

(** ** The text written by a traversal *)

Lemma violation_path_head F p : violation_path F p → ∃ p', p = F :: p'.
Proof. destruct 1; eauto. Qed.

Lemma violation_path_not_sink F p :
  violation_path F p →
  Forall (λ G, displayName G ∉ SinkFunctionSet cfg) p.
Proof. induction 1; by constructor. Qed.

Lemma violation_path_last_only F p Name :
  violation_path F p → Name ∈ BlackListSet cfg →
  last_only Name (map displayName p).
Proof.
  intros Hp HName. induction Hp as [F Hs Hb|F G p Hs Hb Hc Hp IH];
    intros before after Heq.
  - destruct before as [|? [|? ?]]; simpl in Heq; by simplify_eq.
  - destruct before as [|Name' before]; simpl in Heq.
    + injection Heq as Heq _. congruence.
    + injection Heq as _ Heq. by eapply IH.
Qed.

Lemma lines_text_app (a b : list string) :
  lines_text (a ++ b) = lines_text a +:+ lines_text b.
Proof.
  induction a as [|l a IH]; [reflexivity|].
  simpl. by rewrite IH, append_assoc.
Qed.

Lemma reports_text_paths (prefix : list string) (F : Function)
    (chains : list (list string)) :
  Forall (chain_from prefix F) chains →
  ∃ ps, Forall (violation_path F) ps ∧
        chains = map (λ p, prefix ++ map displayName p) ps ∧
        reports_text chains =
          lines_text (map (λ p, report_line (prefix ++ map displayName p)) ps).
Proof.
  induction 1 as [|chain chains (p & Hp & ->) _ (ps & Hps & -> & Htext)].
  - by exists [].
  - exists (p :: ps). split_and!; [by constructor|done|].
    simpl. rewrite Htext, report_text_line; [done|].
    destruct (violation_path_head _ _ Hp) as [p' ->]. by destruct prefix.
Qed.

(** Every run of [traverseFunction] writes one report line for each of a
    list of violation paths from [F], and nothing else; it returns [true]
    when the list is empty. *)
Lemma traverseFunction_output fuel F st r st' :
  traverseFunction fuel F st = Some (r, st') →
  ∃ ps, Forall (violation_path F) ps ∧
        errs st' = errs st +:+
          lines_text (map (λ p, report_line (FunctionChain st ++ map displayName p)) ps) ∧
        (r = true ↔ ps = []).
Proof.
  intros [log Hlog]%traverseFunction_visit.
  pose proof (proj1 visit_frame _ _ _ _ _ Hlog) as [_ _ _ Herrs].
  pose proof (proj1 visit_reports _ _ _ _ _ Hlog) as Hrep.
  pose proof (proj1 visit_result _ _ _ _ _ Hlog) as Hres.
  destruct (reports_text_paths _ _ _ Hrep) as (ps & Hps & Hchains & Htext).
  exists ps. split_and!; [done|congruence|].
  rewrite Hres, Hchains. by destruct ps.
Qed.

(** ** The properties of the specification *)

(** C1. A function that is not memoized, whose display name is not a sink
    and is black-listed: the visit returns [false] (a violation), the text
    written is one report line for the current chain followed by the name,
    the chain is back to what it was and neither pointer set changed, so
    no block of the function was examined.  In every traversal, nothing
    follows that name in a reported chain. *)
Theorem blacklisted_function_reported_not_explored
    (fuel : nat) (F : Function) (st : State) :
  F ∉ FuncPtrSet st →
  displayName F ∉ SinkFunctionSet cfg →
  displayName F ∈ BlackListSet cfg →
  (∃ st', traverseFunction (S fuel) F st = Some (false, st') ∧
     errs st' =
       errs st +:+ report_line (FunctionChain st ++ [displayName F]) ∧
     FunctionChain st' = FunctionChain st ∧
     FuncPtrSet st' = FuncPtrSet st ∧
     BasicBlockPtrSet st' = BasicBlockPtrSet st) ∧
  (∀ fuel0 G st0 r0 st0',
     traverseFunction fuel0 G st0 = Some (r0, st0') →
     ∃ below : list (list string),
       errs st0' = errs st0 +:+
         lines_text
           (map (λ names, report_line (FunctionChain st0 ++ names)) below) ∧
       Forall (last_only (displayName F)) below).
Proof.
  intros HF Hsink Hblack. split.
  - eexists. rewrite traverseFunction_unfold.
    rewrite !decide_False, decide_True by done.
    split; [reflexivity|]. simpl.
    rewrite report_text_line; [done|]. by destruct (FunctionChain st).
  - intros fuel0 G st0 r0 st0' Hrun.
    destruct (traverseFunction_output _ _ _ _ _ Hrun) as (ps & Hps & Herrs & _).
    exists (map (map displayName) ps). split.
    + by rewrite map_map.
    + apply Forall_map. eapply Forall_impl; [exact Hps|].
      intros p Hp. by eapply violation_path_last_only.
Qed.

(** C4. A function whose display name is a sink: the visit returns [true]
    and the state is the one it began with, so nothing was pushed, no
    function or block was entered and nothing was written.  In every
    traversal, no reported chain holds that name after the chain the
    traversal began with. *)
Theorem sink_absorbs (fuel : nat) (F : Function) (st : State) :
  displayName F ∈ SinkFunctionSet cfg →
  traverseFunction (S fuel) F st = Some (true, st) ∧
  (∀ fuel0 G st0 r0 st0',
     traverseFunction fuel0 G st0 = Some (r0, st0') →
     ∃ below : list (list string),
       errs st0' = errs st0 +:+
         lines_text
           (map (λ names, report_line (FunctionChain st0 ++ names)) below) ∧
       Forall (λ names, displayName F ∉ names) below).
Proof.
  intros Hsink. split.
  - rewrite traverseFunction_unfold. case_decide; [done|].
    by rewrite decide_True.
  - intros fuel0 G st0 r0 st0' Hrun.
    destruct (traverseFunction_output _ _ _ _ _ Hrun) as (ps & Hps & Herrs & _).
    exists (map (map displayName) ps). split.
    + by rewrite map_map.
    + apply Forall_map. eapply Forall_impl; [exact Hps|].
      intros p Hp%violation_path_not_sink Hin.
      apply list_elem_of_fmap in Hin as (H & Heq & Hin).
      rewrite Forall_forall in Hp. apply (Hp H Hin). by rewrite <- Heq.
Qed.

(** C10. A function whose display name is both a sink and black-listed is
    treated as a sink: the visit returns [true], writes nothing and leaves
    the chain and the pointer sets as they were. *)
Theorem sink_tested_before_blacklist (fuel : nat) (F : Function) (st : State) :
  displayName F ∈ SinkFunctionSet cfg →
  displayName F ∈ BlackListSet cfg →
  ∃ st', traverseFunction (S fuel) F st = Some (true, st') ∧
         errs st' = errs st ∧
         FunctionChain st' = FunctionChain st ∧
         FuncPtrSet st' = FuncPtrSet st ∧
         BasicBlockPtrSet st' = BasicBlockPtrSet st.
Proof.
  intros Hsink _. exists st. split; [|done].
  rewrite traverseFunction_unfold. case_decide; [done|].
  by rewrite decide_True.
Qed.

(** C6. When the module has no function named [SourceFunction], the run
    returns in the state it began with: no function or block is visited,
    the chain is untouched and nothing is written. *)
Theorem absent_source_is_no_op (fuel : nat) (st : State) :
  getFunction M (SourceFunction cfg) = None →
  runOnModule fuel st = Some (false, st).
Proof. intros Hnone. unfold runOnModule. by rewrite Hnone. Qed.

Lemma runOnModule_fuel_irrelevant (fuel1 fuel2 : nat) (st : State)
    (out1 out2 : bool * State) :
  runOnModule fuel1 st = Some out1 →
  runOnModule fuel2 st = Some out2 →
  out1 = out2.
Proof.
  unfold runOnModule. destruct (getFunction M (SourceFunction cfg)) as [Source|];
    [|congruence].
  unfold bind, ret.
  destruct (traverseFunction fuel1 Source st) as [[r1 st1]|] eqn:H1; [|done].
  destruct (traverseFunction fuel2 Source st) as [[r2 st2]|] eqn:H2; [|done].
  pose proof (traverseFunction_fuel_irrelevant _ _ _ _ _ _ H1 H2).
  congruence.
Qed.

(** C2. Whatever way a visit of a function returns, the chain is the one
    the visit began with; and the text it wrote is one report line per
    violation path from the visited function, each line listing the chain
    the visit began with followed by the display names along the path. *)
Theorem chain_is_balanced (fuel : nat) (F : Function) (st : State)
    (r : bool) (st' : State) :
  traverseFunction fuel F st = Some (r, st') →
  FunctionChain st' = FunctionChain st ∧
  ∃ ps : list (list Function),
    Forall (violation_path F) ps ∧
    errs st' = errs st +:+
      lines_text
        (map (λ p, report_line (FunctionChain st ++ map displayName p)) ps).
Proof.
  intros Hrun. split.
  - apply traverseFunction_visit in Hrun as [log Hlog].
    by apply visit_frame in Hlog as [].
  - destruct (traverseFunction_output _ _ _ _ _ Hrun) as (ps & Hps & Herrs & _).
    by exists ps.
Qed.

(** C3. In a finite program, cyclic or not, a visit with more fuel than
    there are unvisited functions and blocks returns.  It enters the body
    of a function, and examines a block, at most once each, and only of
    those that were not in the pointer sets; what is in a pointer set
    stays there. *)
Theorem terminates_visiting_once (Uf : gset Function) (Ub : gset BasicBlock)
    (fuel : nat) (F : Function) (st : State) :
  closed_universe Uf Ub →
  F ∈ Uf →
  unvisited Uf Ub st < fuel →
  ∃ r st' log,
    traverseFunction fuel F st = Some (r, st') ∧
    visitF F st log r st' ∧
    NoDup (entered_functions log) ∧
    NoDup (entered_blocks log) ∧
    (∀ G, G ∈ entered_functions log →
       (G ∉ FuncPtrSet st) ∧ G ∈ FuncPtrSet st') ∧
    (∀ B, B ∈ entered_blocks log →
       (B ∉ BasicBlockPtrSet st) ∧ B ∈ BasicBlockPtrSet st') ∧
    FuncPtrSet st ⊆ FuncPtrSet st' ∧
    BasicBlockPtrSet st ⊆ BasicBlockPtrSet st'.
Proof.
  intros Hclosed HF Hfuel.
  destruct (proj1 (traverse_terminates Uf Ub Hclosed fuel) F st HF Hfuel)
    as [[r st'] Hrun].
  destruct (traverseFunction_visit _ _ _ _ _ Hrun) as [log Hlog].
  exists r, st', log.
  pose proof (proj1 visit_frame _ _ _ _ _ Hlog) as [_ Hf Hb _].
  pose proof (proj1 visit_fresh _ _ _ _ _ Hlog) as [Nf Nb Ef Eb].
  split_and!; try done.
  - intros G HG%Ef. tauto.
  - intros B HB%Eb. tauto.
Qed.


Lemma reports_text_lines (prefix : list string) (F : Function)
    (chains : list (list string)) :
  Forall (chain_from prefix F) chains →
  reports_text chains = lines_text (map report_line chains).
Proof.
  induction 1 as [|chain chains (p & Hp & ->) _ IH]; [done|].
  simpl. rewrite IH, report_text_line; [done|].
  destruct (violation_path_head _ _ Hp) as [p' ->]. by destruct prefix.
Qed.

(** C8. Every report is one line of the output format: a call of
    [warnOnCallChain] writes the heading, the names of the chain separated
    by single spaces and the end of the line, and nothing else, and changes
    nothing but the text.  A run writes nothing without the source
    function; with it, the text it writes is exactly one such line for
    each report of the trace of the visit of the source function, in the
    order of the trace, the visit returns [true] exactly when there is no
    line, and each line lists the chain the run began with (empty on a
    fresh pass object) followed by the display names along a path of the
    call graph from the source function to a black-listed function. *)
Theorem output_is_report_lines (fuel : nat) (st : State)
    (r : bool) (st' : State) :
  runOnModule fuel st = Some (r, st') →
  (∀ st0, FunctionChain st0 ≠ [] →
     warnOnCallChain st0
     = Some (tt, write (report_line (FunctionChain st0)) st0)) ∧
  match getFunction M (SourceFunction cfg) with
  | None => st' = st
  | Some Source =>
      ∃ (r1 : bool) (log : list Event),
        traverseFunction fuel Source st = Some (r1, st') ∧
        visitF Source st log r1 st' ∧
        (r1 = true ↔ reported log = []) ∧
        errs st' = errs st +:+ lines_text (map report_line (reported log)) ∧
        Forall (λ names, ∃ p, violation_path Source p ∧
                  names = FunctionChain st ++ map displayName p)
          (reported log)
  end.
Proof.
  intros Hrun. split.
  - intros st0 Hne. by rewrite warnOnCallChain_text, report_text_line.
  - unfold runOnModule in Hrun.
    destruct (getFunction M (SourceFunction cfg)) as [Source|];
      [|by injection Hrun as _ <-].
    unfold bind, ret in Hrun.
    destruct (traverseFunction fuel Source st) as [[r1 st1]|] eqn:Hrun1;
      [|done].
    injection Hrun as _ <-.
    destruct (traverseFunction_visit _ _ _ _ _ Hrun1) as [log Hlog].
    pose proof (proj1 visit_frame _ _ _ _ _ Hlog) as [_ _ _ Herrs].
    pose proof (proj1 visit_reports _ _ _ _ _ Hlog) as Hreports.
    exists r1, log. split_and!; [done|done| | |done].
    + exact (proj1 visit_result _ _ _ _ _ Hlog).
    + by rewrite Herrs, (reports_text_lines _ _ _ Hreports).
Qed.

(** ** Every caller of a black-listed function is reported *)

Section Callers.

Variable parent : BasicBlock → Function.
Hypothesis owned : owned_blocks parent.
Variable X : Function.
Hypothesis X_blacklisted : displayName X ∈ BlackListSet cfg.
Hypothesis X_not_sink : displayName X ∉ SinkFunctionSet cfg.

Lemma visitF_blacklisted_log st log r st' :
  visitF X st log r st' → X ∉ FuncPtrSet st →
  log = [EvReport (FunctionChain st ++ [displayName X])].
Proof. by inversion 1. Qed.

Lemma tracked_sets st st' :
  FuncPtrSet st' = FuncPtrSet st →
  BasicBlockPtrSet st' = BasicBlockPtrSet st →
  tracked parent X st → tracked parent X st'.
Proof.
  unfold tracked, blocks_within. intros -> ->. done.
Qed.

Lemma tracked_insert_function F Name st :
  displayName F ∉ BlackListSet cfg →
  tracked parent X st →
  tracked parent X (insert_function F (push_back Name st)).
Proof.
  intros HF [Hin HX]. split.
  - intros B HB. simpl. apply elem_of_union_r, Hin, HB.
  - simpl. intros [->%elem_of_singleton|?]%elem_of_union; done.
Qed.

Lemma tracked_insert_block B st :
  parent B ∈ FuncPtrSet st →
  tracked parent X st → tracked parent X (insert_block B st).
Proof.
  intros HB [Hin HX]. split; [|done].
  intros B' [->%elem_of_singleton|?]%elem_of_union; simpl; auto.
Qed.

Lemma examined_here_earlier chain log1 log2 st1 st2 B :
  BasicBlockPtrSet st1 ⊆ BasicBlockPtrSet st2 →
  examined_here X chain log1 st1 B →
  examined_here X chain (log1 ++ log2) st2 B.
Proof.
  intros Hsub [Hsucc Hcall]. split.
  - intros B' HB'. apply Hsub, Hsucc, HB'.
  - intros HX. rewrite reported_app. apply in_or_app. left. auto.
Qed.

Lemma examined_here_later chain log1 log2 st2 B :
  examined_here X chain log2 st2 B →
  examined_here X chain (log1 ++ log2) st2 B.
Proof.
  intros [Hsucc Hcall]. split; [done|].
  intros HX. rewrite reported_app. apply in_or_app. right. auto.
Qed.

Lemma new_blocks_foreign_refl st st' :
  BasicBlockPtrSet st' = BasicBlockPtrSet st →
  new_blocks_foreign parent st st'.
Proof. intros Heq B. rewrite Heq. done. Qed.

Lemma new_blocks_foreign_trans st log1 st1 st2 :
  frame st log1 st1 →
  new_blocks_foreign parent st st1 →
  new_blocks_foreign parent st1 st2 →
  new_blocks_foreign parent st st2.
Proof.
  intros [_ Hf _ _] H1 H2 B Hin Hnot.
  destruct (decide (B ∈ BasicBlockPtrSet st1)) as [Hmid|Hmid].
  - by apply H1.
  - intros Hp. by apply (H2 B Hin Hmid), Hf.
Qed.

Lemma new_blocks_examined_foreign K st log st' :
  new_blocks_foreign parent st st' →
  new_blocks_examined parent X K st log st'.
Proof. intros H B Hin Hnot. right. by apply H. Qed.

Lemma new_blocks_examined_trans K st log1 st1 log2 st2 :
  frame st log1 st1 → frame st1 log2 st2 →
  new_blocks_examined parent X K st log1 st1 →
  new_blocks_examined parent X K st1 log2 st2 →
  new_blocks_examined parent X K st (log1 ++ log2) st2.
Proof.
  intros [Hc1 Hf1 _ _] [_ _ Hb2 _] H1 H2 B Hin Hnot.
  destruct (decide (B ∈ BasicBlockPtrSet st1)) as [Hmid|Hmid].
  - destruct (H1 B Hmid Hnot) as [[HK Hex]|Hp]; [left|by right].
    split; [done|]. by apply examined_here_earlier with st1.
  - destruct (H2 B Hin Hmid) as [[HK Hex]|Hp]; [left|right].
    + split; [done|]. rewrite Hc1 in Hex. by apply examined_here_later.
    + intros Hp'. by apply Hp, Hf1.
Qed.

Lemma visitB_visited B st log r st' :
  visitB B st log r st' → B ∈ BasicBlockPtrSet st'.
Proof.
  destruct 1 as [B st HB|B st log1 r1 st1 log2 r st' HB Hex Hsucc]; [done|].
  apply visit_frame in Hex as [_ _ Hb1 _].
  apply visit_frame in Hsucc as [_ _ Hb2 _].
  apply Hb2, Hb1. simpl. set_solver.
Qed.

Lemma reached_block_examined F FirstBlock st0 log st' B :
  F ∈ FuncPtrSet st0 →
  (∀ B', parent B' = F → B' ∉ BasicBlockPtrSet st0) →
  new_blocks_examined parent X F st0 log st' →
  block_reach FirstBlock B →
  FirstBlock ∈ BasicBlockPtrSet st' → parent FirstBlock = F →
  examined_here X (FunctionChain st0) log st' B.
Proof.
  intros HF Hwhite Hnew. induction 1 as [B|B B' B'' Hsucc _ IH];
    intros Hin Hparent.
  - destruct (Hnew B Hin) as [[_ Hex]|Hp]; [by apply Hwhite|done|].
    by rewrite Hparent in Hp.
  - destruct (Hnew B Hin) as [[_ [Hclosed _]]|Hp]; [by apply Hwhite| |].
    + apply IH; [by apply Hclosed|].
      by rewrite (owned_successor _ owned B B').
    + by rewrite Hparent in Hp.
Qed.

Lemma visit_callers :
  (∀ F st log r st', visitF F st log r st' →
     tracked parent X st →
     tracked parent X st' ∧ new_blocks_foreign parent st st' ∧
     (F ∉ FuncPtrSet st → displayName F ∉ SinkFunctionSet cfg →
      displayName F ∉ BlackListSet cfg → calls F X →
      In (FunctionChain st ++ [displayName F; displayName X])
         (reported log))) ∧
  (∀ B st log r st', visitB B st log r st' →
     tracked parent X st → parent B ∈ FuncPtrSet st →
     tracked parent X st' ∧
     new_blocks_examined parent X (parent B) st log st') ∧
  (∀ Insts P st log r st', examineI Insts P st log r st' →
     tracked parent X st →
     tracked parent X st' ∧ new_blocks_foreign parent st st' ∧
     (In (CallInst (Some X)) Insts →
      In (FunctionChain st ++ [displayName X]) (reported log))) ∧
  (∀ Succs P st log r st', visitS Succs P st log r st' →
     ∀ K, tracked parent X st → K ∈ FuncPtrSet st →
          (∀ B0, In (Some B0) Succs → parent B0 = K) →
     tracked parent X st' ∧
     (∀ B0, In (Some B0) Succs → B0 ∈ BasicBlockPtrSet st') ∧
     new_blocks_examined parent X K st log st').
Proof.
  pose proof visit_frame as (FrF & FrB & FrI & FrS).
  apply visit_mutind.
  - (* memoized *)
    intros F st HF Htr. split_and!; [done|by apply new_blocks_foreign_refl|done].
  - (* sink *)
    intros F st HF Hsink Htr.
    split_and!; [done|by apply new_blocks_foreign_refl|done].
  - (* black-listed *)
    intros F st HF Hsink Hblack Htr.
    split_and!; [by eapply tracked_sets|by apply new_blocks_foreign_refl|done].
  - (* declaration *)
    intros F st HF Hsink Hblack Hentry Htr. split_and!.
    + eapply tracked_sets; [..|by apply (tracked_insert_function F "")]; done.
    + by apply new_blocks_foreign_refl.
    + intros _ _ _ (B & B' & HB & _). congruence.
  - (* body *)
    intros F st FirstBlock log r st' HF Hsink Hblack Hentry Hvisit IH Htr.
    set (st0 := insert_function F (push_back (displayName F) st)) in *.
    assert (parent FirstBlock = F) as Hparent by by apply owned.
    destruct IH as [Htr' Hnew].
    { by apply tracked_insert_function. }
    { rewrite Hparent. simpl. set_solver. }
    rewrite Hparent in Hnew.
    assert (∀ B', parent B' = F → B' ∉ BasicBlockPtrSet st0) as Hwhite.
    { intros B' HB' Hin. apply HF. rewrite <- HB'. by apply Htr. }
    split_and!.
    + by eapply tracked_sets.
    + intros B Hin Hnot. destruct (Hnew B Hin Hnot) as [[<- _]|Hp].
      * exact HF.
      * intros Hp'. apply Hp. simpl. set_solver.
    + intros _ _ _ (B0 & B & HB0 & Hreach & Hcall).
      assert (B0 = FirstBlock) as -> by congruence.
      destruct (reached_block_examined F FirstBlock st0 log st' B)
        as [_ Hrep]; try done.
      { simpl. set_solver. }
      { by eapply visitB_visited. }
      simpl in Hrep. rewrite <- app_assoc in Hrep. by apply Hrep.
  - (* block memoized *)
    intros B st HB Htr HK. split; [done|]. by intros B' ??.
  - (* block examined *)
    intros B st log1 r1 st1 log2 r st' HB Hex IH1 Hsucc IH2 Htr HK.
    pose proof (FrI _ _ _ _ _ _ Hex) as Fr1.
    pose proof (FrS _ _ _ _ _ _ Hsucc) as Fr2.
    destruct IH1 as (Htr1 & Hnew1 & Hcall1); [by apply tracked_insert_block|].
    destruct (IH2 (parent B)) as (Htr2 & Hsucc2 & Hnew2); [done| |by apply owned|].
    { by apply (frame_functions _ _ _ Fr1). }
    split; [done|].
    intros B' Hin Hnot. destruct (decide (B' = B)) as [->|Hne].
    + left. split; [done|]. split; [done|].
      intros HX. simpl. rewrite reported_app. apply in_or_app. left. auto.
    + assert (new_blocks_examined parent X (parent B) (insert_block B st)
                (log1 ++ log2) st') as Hnew.
      { eapply new_blocks_examined_trans; try done.
        by apply new_blocks_examined_foreign. }
      destruct (Hnew B' Hin) as [[HK' Hex']|Hp];
        [simpl; set_solver|by left|by right].
  - (* end of the instructions *)
    intros P st Htr. split_and!; [done|by apply new_blocks_foreign_refl|done].
  - (* direct call *)
    intros F Insts P st log1 r1 st1 log2 r st' HF IH1 Hrest IH2 Htr.
    pose proof (FrF _ _ _ _ _ HF) as Fr1.
    destruct (IH1 Htr) as (Htr1 & Hnew1 & _).
    destruct (IH2 Htr1) as (Htr2 & Hnew2 & Hcall2).
    split_and!; [done|by eapply new_blocks_foreign_trans|].
    rewrite reported_app. intros [[= ->]|HX]; apply in_or_app.
    + left. rewrite (visitF_blacklisted_log _ _ _ _ HF); [by left|apply Htr].
    + right. rewrite <- (frame_chain _ _ _ Fr1). auto.
  - (* indirect call *)
    intros Insts P st log r st' _ IH Htr.
    destruct (IH Htr) as (Htr' & Hnew & Hcall).
    split_and!; [done..|]. intros [[=]|HX]. auto.
  - (* other instruction *)
    intros Insts P st log r st' _ IH Htr.
    destruct (IH Htr) as (Htr' & Hnew & Hcall).
    split_and!; [done..|]. intros [[=]|HX]. auto.
  - (* end of the successors *)
    intros P st K Htr HK Hpar. split_and!; [done|by intros ? []|by intros B' ??].
  - (* successor *)
    intros B Succs P st log1 r1 st1 log2 r st' HB IH1 Hrest IH2 K Htr HK Hpar.
    pose proof (FrB _ _ _ _ _ HB) as Fr1.
    pose proof (FrS _ _ _ _ _ _ Hrest) as Fr2.
    assert (parent B = K) as HBK by (apply Hpar; by left).
    destruct IH1 as (Htr1 & Hnew1); [done|by rewrite HBK|].
    rewrite HBK in Hnew1.
    destruct (IH2 K) as (Htr2 & Hsucc2 & Hnew2);
      [done|by apply (frame_functions _ _ _ Fr1)|intros; apply Hpar; by right|].
    split_and!; [done| |by eapply new_blocks_examined_trans].
    intros B0 [[= <-]|HB0]; [|by auto].
    apply (frame_blocks _ _ _ Fr2). by eapply visitB_visited.
  - (* null successor *)
    intros Succs P st log r st' _ IH K Htr HK Hpar.
    destruct (IH K) as (Htr' & Hsucc & Hnew);
      [done|done|intros; apply Hpar; by right|].
    split_and!; [done| |done]. intros B0 [[=]|HB0]. auto.
Qed.

End Callers.

Lemma caller_reported (parent : BasicBlock → Function) (X F : Function)
    (fuel : nat) (st : State) (r : bool) (st' : State) :
  owned_blocks parent →
  tracked parent X st →
  displayName X ∈ BlackListSet cfg →
  displayName X ∉ SinkFunctionSet cfg →
  F ∉ FuncPtrSet st →
  displayName F ∉ SinkFunctionSet cfg →
  displayName F ∉ BlackListSet cfg →
  calls F X →
  traverseFunction fuel F st = Some (r, st') →
  r = false ∧ tracked parent X st' ∧ FunctionChain st' = FunctionChain st ∧
  ∃ before after,
    errs st' = errs st +:+ before +:+
      report_line (FunctionChain st ++ [displayName F; displayName X])
      +:+ after.
Proof.
  intros Howned Htr HXb HXs HF HFs HFb Hcalls [log Hlog]%traverseFunction_visit.
  destruct (proj1 (visit_callers parent Howned X HXb HXs) _ _ _ _ _ Hlog Htr)
    as (Htr' & _ & Hrep).
  specialize (Hrep HF HFs HFb Hcalls).
  pose proof (proj1 visit_frame _ _ _ _ _ Hlog) as [Hchain _ _ Herrs].
  pose proof (proj1 visit_result _ _ _ _ _ Hlog) as Hres.
  split_and!; [|done..|].
  - destruct r; [|done]. rewrite (proj1 Hres eq_refl) in Hrep. by destruct Hrep.
  - apply in_split in Hrep as (l1 & l2 & Hsplit).
    exists (reports_text l1), (reports_text l2).
    rewrite Herrs, Hsplit, reports_text_app. simpl.
    rewrite report_text_line; [done|]. by destruct (FunctionChain st).
Qed.


(** ** Runs of the whole pass *)

(** X14. On a finite module a run returns as soon as the recursion depth
    it is allowed exceeds the number of functions and blocks not visited
    yet. *)
Lemma runOnModule_terminates (Uf : gset Function) (Ub : gset BasicBlock)
    (fuel : nat) (st : State) :
  closed_universe Uf Ub →
  (∀ Source, getFunction M (SourceFunction cfg) = Some Source → Source ∈ Uf) →
  unvisited Uf Ub st < fuel →
  is_Some (runOnModule fuel st).
Proof.
  intros Hclosed Hsource Hfuel. unfold runOnModule.
  destruct (getFunction M (SourceFunction cfg)) as [Source|]; [|done].
  destruct (proj1 (traverse_terminates Uf Ub Hclosed fuel) Source st)
    as [[r st'] Hrun]; [by apply Hsource|done|].
  unfold bind. by rewrite Hrun.
Qed.

Lemma visitF_marks F st log r st' :
  visitF F st log r st' →
  displayName F ∉ SinkFunctionSet cfg →
  displayName F ∉ BlackListSet cfg →
  F ∈ FuncPtrSet st'.
Proof.
  destruct 1 as [F st HF|F st HF Hs|F st HF Hs Hb|F st HF Hs Hb He
                |F st FirstBlock log r st' HF Hs Hb He Hvisit];
    try done; intros _ _.
  - simpl. set_solver.
  - apply visit_frame in Hvisit as [_ Hf _ _]. simpl in *. set_solver.
Qed.

(** X15. The pointer sets are members of the pass object and are never
    cleared: a second [runOnModule] on the same object finds an ordinary
    source function memoized and writes nothing. *)
Lemma rerun_is_memoized (fuel fuel' : nat) (Source : Function)
    (st : State) (r : bool) (st1 : State) :
  getFunction M (SourceFunction cfg) = Some Source →
  displayName Source ∉ SinkFunctionSet cfg →
  displayName Source ∉ BlackListSet cfg →
  runOnModule fuel st = Some (r, st1) →
  runOnModule (S fuel') st1 = Some (false, st1).
Proof.
  intros Hsource Hs Hb. unfold runOnModule. rewrite Hsource. unfold bind, ret.
  destruct (traverseFunction fuel Source st) as [[r1 st1']|] eqn:Hrun; [|done].
  intros [= <- <-]. apply traverseFunction_visit in Hrun as [log Hlog].
  rewrite traverseFunction_unfold, decide_True; [done|].
  by eapply visitF_marks.
Qed.

(** ** The result of a visit and the text it writes *)

Lemma append_eq_self (a b : string) : a +:+ b = a → b = "".
Proof.
  intros Heq. apply (inj (String.app a)). by rewrite append_nil_r.
Qed.

Lemma report_text_not_empty (chain : list string) (rest : string) :
  report_text chain +:+ rest ≠ "".
Proof. unfold report_text. rewrite !append_assoc. by cbv. Qed.

Lemma reports_text_empty (chains : list (list string)) :
  reports_text chains = "" ↔ chains = [].
Proof.
  split; [|by intros ->]. destruct chains as [|chain chains]; [done|].
  simpl. intros Heq. by apply report_text_not_empty in Heq.
Qed.

Lemma frame_nothing_written st log st' :
  frame st log st' → errs st' = errs st ↔ reported log = [].
Proof.
  intros [_ _ _ Herrs]. rewrite Herrs, <- reports_text_empty. split.
  - apply append_eq_self.
  - intros ->. apply append_nil_r.
Qed.

Lemma examineBlock_visit fuel B st r st' :
  examineBlock fuel B st = Some (r, st') →
  ∃ log, examineI (instructions M B) true st log r st'.
Proof. apply examineBlock_loop_visit, traverseFunction_visit. Qed.

(** X1. A visit of a function returns [true] exactly when it wrote
    nothing: [false] is returned with a report, and only then. *)
Theorem result_true_iff_nothing_written (fuel : nat) (F : Function)
    (st : State) (r : bool) (st' : State) :
  traverseFunction fuel F st = Some (r, st') →
  r = true ↔ errs st' = errs st.
Proof.
  intros [log Hlog]%traverseFunction_visit.
  rewrite (proj1 visit_result _ _ _ _ _ Hlog).
  symmetry. apply frame_nothing_written, (proj1 visit_frame _ _ _ _ _ Hlog).
Qed.

Lemma visitB_marks B st log r st' :
  visitB B st log r st' → B ∈ BasicBlockPtrSet st'.
Proof.
  destruct 1 as [B st HB|B st log1 r1 st1 log2 r st' HB Hex Hsucc]; [done|].
  apply visit_frame in Hex as [_ _ Hb1 _].
  apply visit_frame in Hsucc as [_ _ Hb2 _].
  apply Hb2, Hb1. simpl. set_solver.
Qed.

(** X2. A traversal of a block leaves the block in the set of visited
    blocks and the chain as it was; neither pointer set loses an element;
    the text written before is kept, followed by what the traversal
    wrote; and the result is [true] exactly when it wrote nothing. *)
Theorem traverseBasicBlock_contract (fuel : nat) (Block : BasicBlock)
    (st : State) (r : bool) (st' : State) :
  traverseBasicBlock fuel Block st = Some (r, st') →
  Block ∈ BasicBlockPtrSet st' ∧
  FunctionChain st' = FunctionChain st ∧
  FuncPtrSet st ⊆ FuncPtrSet st' ∧
  BasicBlockPtrSet st ⊆ BasicBlockPtrSet st' ∧
  (∃ text, errs st' = errs st +:+ text) ∧
  (r = true ↔ errs st' = errs st).
Proof.
  intros [log Hlog]%traverseBasicBlock_visit.
  pose proof (proj1 (proj2 visit_frame) _ _ _ _ _ Hlog) as Hframe.
  split_and!.
  - by eapply visitB_marks.
  - apply Hframe.
  - apply Hframe.
  - apply Hframe.
  - eexists. apply Hframe.
  - rewrite (proj1 (proj2 visit_result) _ _ _ _ _ Hlog).
    symmetry. by apply frame_nothing_written.
Qed.

(** X3. The examination of a block leaves the chain as it was; neither
    pointer set loses an element; the text written before is kept; and
    the result is [true] exactly when nothing was written. *)
Theorem examineBlock_contract (fuel : nat) (Block : BasicBlock)
    (st : State) (r : bool) (st' : State) :
  examineBlock fuel Block st = Some (r, st') →
  FunctionChain st' = FunctionChain st ∧
  FuncPtrSet st ⊆ FuncPtrSet st' ∧
  BasicBlockPtrSet st ⊆ BasicBlockPtrSet st' ∧
  (∃ text, errs st' = errs st +:+ text) ∧
  (r = true ↔ errs st' = errs st).
Proof.
  intros [log Hlog]%examineBlock_visit.
  pose proof (proj1 (proj2 (proj2 visit_frame)) _ _ _ _ _ _ Hlog) as Hframe.
  split_and!.
  - apply Hframe.
  - apply Hframe.
  - apply Hframe.
  - eexists. apply Hframe.
  - rewrite (proj1 (proj2 (proj2 visit_result)) _ _ _ _ _ _ Hlog).
    rewrite (frame_nothing_written _ _ _ Hframe). tauto.
Qed.

(** ** The set of visited functions holds ordinary functions only *)

Lemma visit_entered_ordinary :
  (∀ F st log r st', visitF F st log r st' →
     Forall ordinary (entered_functions log)) ∧
  (∀ B st log r st', visitB B st log r st' →
     Forall ordinary (entered_functions log)) ∧
  (∀ Insts P st log r st', examineI Insts P st log r st' →
     Forall ordinary (entered_functions log)) ∧
  (∀ Succs P st log r st', visitS Succs P st log r st' →
     Forall ordinary (entered_functions log)).
Proof.
  apply visit_mutind; intros; simpl; rewrite ?entered_functions_app;
    try (by constructor); try (by apply Forall_app); done.
Qed.

(** X4. A visit puts a function in the set of visited functions only when
    it is ordinary, so a set that holds no sink and no black-listed
    function keeps holding none; and the visited function itself is in
    the set afterwards when it is ordinary. *)
Theorem visited_functions_stay_ordinary (fuel : nat) (F : Function)
    (st : State) (r : bool) (st' : State) :
  traverseFunction fuel F st = Some (r, st') →
  (∀ G, G ∈ FuncPtrSet st → ordinary G) →
  (∀ G, G ∈ FuncPtrSet st' → ordinary G) ∧
  (ordinary F → F ∈ FuncPtrSet st').
Proof.
  intros [log Hlog]%traverseFunction_visit Hbefore. split.
  - intros G HG. destruct (decide (G ∈ FuncPtrSet st)) as [Hold|Hnew];
      [by apply Hbefore|].
    pose proof (proj1 visit_fresh _ _ _ _ _ Hlog) as [_ _ Hentered _].
    pose proof (proj1 visit_entered_ordinary _ _ _ _ _ Hlog) as Hordinary.
    rewrite Forall_forall in Hordinary. apply Hordinary, Hentered. done.
  - intros [Hsink Hblack]. by eapply visitF_marks.
Qed.

(** ** The flag [Passed] *)

(** X5. In the loop over the instructions and in the loop over the
    successors the flag [Passed] is only accumulated: the state the loop
    ends in is the one it ends in when started with [true], and the result
    is the conjunction of the starting flag with that run's result.  A
    violation found earlier neither stops nor changes the exploration of
    what follows. *)
Theorem Passed_only_accumulates (traverseF : Function → Visit bool)
    (traverseB : BasicBlock → Visit bool) (Insts : list Instruction)
    (Succs : list (option BasicBlock)) (Passed : bool) (st : State) :
  examineBlock_loop traverseF Insts Passed st
  = option_map (λ out, (Passed && out.1, out.2))
      (examineBlock_loop traverseF Insts true st) ∧
  successors_loop traverseB Succs Passed st
  = option_map (λ out, (Passed && out.1, out.2))
      (successors_loop traverseB Succs true st).
Proof.
  split.
  - revert Passed st.
    induction Insts as [|[[F|]|] Insts IH]; intros Passed st; simpl;
      [by rewrite andb_true_r|..|apply IH|apply IH].
    unfold bind. destruct (traverseF F st) as [[r1 st1]|]; [|done].
    rewrite (IH (Passed && r1)), (IH (true && r1)).
    destruct (examineBlock_loop traverseF Insts true st1) as [[r2 st2]|];
      [|done].
    simpl. by rewrite andb_assoc.
  - revert Passed st.
    induction Succs as [|[B|] Succs IH]; intros Passed st; simpl;
      [by rewrite andb_true_r|..|apply IH].
    unfold bind. destruct (traverseB B st) as [[r1 st1]|]; [|done].
    rewrite (IH (Passed && r1)), (IH (true && r1)).
    destruct (successors_loop traverseB Succs true st1) as [[r2 st2]|];
      [|done].
    simpl. by rewrite andb_assoc.
Qed.

(** ** Memoization hides what was found before *)

(** X6. Once an ordinary function has been visited, every later visit of
    it returns [true] and changes nothing, whatever the first visit
    returned: the result [true] of a memoized visit says nothing about
    the function. *)
Theorem revisit_is_silent (fuel fuel' : nat) (F : Function)
    (st : State) (r : bool) (st1 st2 : State) :
  traverseFunction fuel F st = Some (r, st1) →
  ordinary F →
  FuncPtrSet st1 ⊆ FuncPtrSet st2 →
  traverseFunction (S fuel') F st2 = Some (true, st2).
Proof.
  intros [log Hlog]%traverseFunction_visit [Hsink Hblack] Hlater.
  rewrite traverseFunction_unfold, decide_True; [done|].
  apply Hlater. by eapply visitF_marks.
Qed.

(** X7. A run of the pass always returns [false] (the module is not
    changed), whatever it reported; it leaves the chain as it was, loses
    no element of a pointer set and keeps the text written before. *)
Theorem runOnModule_contract (fuel : nat) (st : State)
    (r : bool) (st' : State) :
  runOnModule fuel st = Some (r, st') →
  r = false ∧
  FunctionChain st' = FunctionChain st ∧
  FuncPtrSet st ⊆ FuncPtrSet st' ∧
  BasicBlockPtrSet st ⊆ BasicBlockPtrSet st' ∧
  ∃ text, errs st' = errs st +:+ text.
Proof.
  unfold runOnModule.
  destruct (getFunction M (SourceFunction cfg)) as [Source|].
  - unfold bind, ret.
    destruct (traverseFunction fuel Source st) as [[r1 st1]|] eqn:Hrun; [|done].
    intros [= <- <-]. apply traverseFunction_visit in Hrun as [log Hlog].
    apply visit_frame in Hlog as [Hc Hf Hb He].
    split_and!; try done. by eexists.
  - intros [= <- <-]. split_and!; try done.
    exists "". by rewrite append_nil_r.
Qed.

(** ** The traversal explores everything it can reach *)

Lemma handled_mono st st' G :
  FuncPtrSet st ⊆ FuncPtrSet st' → handled st G → handled st' G.
Proof. intros Hsub [HG|HG]; [left; by apply Hsub|by right]. Qed.

Lemma explored_same_sets GF GB st st' :
  FuncPtrSet st' = FuncPtrSet st →
  BasicBlockPtrSet st' = BasicBlockPtrSet st →
  explored GF GB st → explored GF GB st'.
Proof.
  intros Hf Hb [He Hs Hc]. split; unfold handled; rewrite ?Hf, ?Hb; eauto.
Qed.

Lemma explored_insert_function GF GB F Name st :
  explored GF GB st →
  explored (GF ∪ {[F]}) GB (insert_function F (push_back Name st)).
Proof.
  intros [He Hs Hc]. split; simpl.
  - intros G B HG Hgrey. apply (He G B); set_solver.
  - done.
  - intros B G HB Hgrey Hcall.
    apply (handled_mono st); [simpl; set_solver|eauto].
Qed.

Lemma explored_function_done GF GB F st :
  explored (GF ∪ {[F]}) GB st →
  (∀ B, getEntryBlock M F = Some B → B ∈ BasicBlockPtrSet st) →
  explored GF GB st.
Proof.
  intros [He Hs Hc] Hentry. split; [|done..].
  intros G B HG Hgrey HB. destruct (decide (G = F)) as [->|Hne]; [by auto|].
  apply (He G B); set_solver.
Qed.

Lemma explored_insert_block GF GB B st :
  explored GF GB st → explored GF (GB ∪ {[B]}) (insert_block B st).
Proof.
  intros [He Hs Hc]. split; simpl.
  - intros G B0 HG Hgrey HB0. apply elem_of_union_r. eauto.
  - intros B1 B2 HB1 Hgrey Hsucc. apply elem_of_union_r.
    apply (Hs B1 B2); set_solver.
  - intros B1 G HB1 Hgrey Hcall. apply (Hc B1 G); set_solver.
Qed.

Lemma explored_block_done GF GB B st :
  explored GF (GB ∪ {[B]}) st →
  (∀ B', In (Some B') (successors B) → B' ∈ BasicBlockPtrSet st) →
  (∀ G, In (CallInst (Some G)) (instructions M B) → handled st G) →
  explored GF GB st.
Proof.
  intros [He Hs Hc] Hsucc Hcall. split; [done|..].
  - intros B1 B2 HB1 Hgrey HB2.
    destruct (decide (B1 = B)) as [->|Hne]; [by auto|].
    apply (Hs B1 B2); set_solver.
  - intros B1 G HB1 Hgrey HG.
    destruct (decide (B1 = B)) as [->|Hne]; [by auto|].
    apply (Hc B1 G); set_solver.
Qed.

Lemma visit_explored :
  (∀ F st log r st', visitF F st log r st' →
     ∀ GF GB, explored GF GB st → explored GF GB st' ∧ handled st' F) ∧
  (∀ B st log r st', visitB B st log r st' →
     ∀ GF GB, explored GF GB st →
       explored GF GB st' ∧ B ∈ BasicBlockPtrSet st') ∧
  (∀ Insts P st log r st', examineI Insts P st log r st' →
     ∀ GF GB, explored GF GB st →
       explored GF GB st' ∧
       ∀ G, In (CallInst (Some G)) Insts → handled st' G) ∧
  (∀ Succs P st log r st', visitS Succs P st log r st' →
     ∀ GF GB, explored GF GB st →
       explored GF GB st' ∧
       ∀ B', In (Some B') Succs → B' ∈ BasicBlockPtrSet st').
Proof.
  pose proof visit_frame as (FrF & FrB & FrI & FrS).
  apply visit_mutind.
  - (* memoized *) intros F st HF GF GB Hex. split; [done|by left].
  - (* sink *) intros F st _ Hsink GF GB Hex. split; [done|right; by left].
  - (* black-listed *)
    intros F st _ _ Hblack GF GB Hex. split; [|right; by right].
    by apply (explored_same_sets GF GB st).
  - (* declaration *)
    intros F st _ _ _ Hentry GF GB Hex. split; [|left; simpl; set_solver].
    apply (explored_function_done GF GB F); [|intros B; congruence].
    apply (explored_same_sets _ _ (insert_function F (push_back "" st)));
      [done..|]. by apply explored_insert_function.
  - (* body *)
    intros F st FirstBlock log r st' _ _ _ Hentry Hvisit IH GF GB Hex.
    destruct (IH (GF ∪ {[F]}) GB) as [Hex' Hfirst];
      [by apply explored_insert_function|].
    apply FrB in Hvisit as [_ Hf _ _]. split.
    + apply (explored_same_sets _ _ st'); [done..|].
      apply (explored_function_done GF GB F); [done|].
      intros B HB. congruence.
    + left. simpl in *. set_solver.
  - (* block memoized *) intros B st HB GF GB Hex. by split.
  - (* block examined *)
    intros B st log1 r1 st1 log2 r st' _ Hex IH1 Hsucc IH2 GF GB Hexp.
    destruct (IH1 GF (GB ∪ {[B]})) as [Hexp1 Hcalls];
      [by apply explored_insert_block|].
    destruct (IH2 GF (GB ∪ {[B]}) Hexp1) as [Hexp2 Hsuccs].
    apply FrI in Hex as [_ _ Hb1 _]. apply FrS in Hsucc as [_ Hf2 Hb2 _].
    split.
    + apply (explored_block_done GF GB B); [done..|].
      intros G HG. by apply (handled_mono st1), Hcalls.
    + apply Hb2, Hb1. simpl. set_solver.
  - (* end of the instructions *) intros P st GF GB Hex. by split.
  - (* direct call *)
    intros F Insts P st log1 r1 st1 log2 r st' _ IH1 Hrest IH2 GF GB Hex.
    destruct (IH1 GF GB Hex) as [Hex1 HF].
    destruct (IH2 GF GB Hex1) as [Hex2 Hcalls].
    apply FrI in Hrest as [_ Hf _ _].
    split; [done|]. intros G [[= <-]|HG]; [by apply (handled_mono st1)|auto].
  - (* indirect call *)
    intros Insts P st log r st' _ IH GF GB Hex.
    destruct (IH GF GB Hex) as [Hex' Hcalls].
    split; [done|]. intros G [[=]|HG]. auto.
  - (* other instruction *)
    intros Insts P st log r st' _ IH GF GB Hex.
    destruct (IH GF GB Hex) as [Hex' Hcalls].
    split; [done|]. intros G [[=]|HG]. auto.
  - (* end of the successors *) intros P st GF GB Hex. by split.
  - (* successor *)
    intros B Succs P st log1 r1 st1 log2 r st' _ IH1 Hrest IH2 GF GB Hex.
    destruct (IH1 GF GB Hex) as [Hex1 HB].
    destruct (IH2 GF GB Hex1) as [Hex2 Hsuccs].
    apply FrS in Hrest as [_ _ Hb _].
    split; [done|]. intros B' [[= <-]|HB']; [by apply Hb|auto].
  - (* null successor *)
    intros Succs P st log r st' _ IH GF GB Hex.
    destruct (IH GF GB Hex) as [Hex' Hsuccs].
    split; [done|]. intros B' [[=]|HB']. auto.
Qed.

Lemma explored_fresh_state GF GB st :
  FuncPtrSet st = ∅ → BasicBlockPtrSet st = ∅ → explored GF GB st.
Proof. intros Hf Hb. split; rewrite ?Hf, ?Hb; set_solver. Qed.

Lemma explored_block_reach st B B' :
  explored ∅ ∅ st → block_reach B B' →
  B ∈ BasicBlockPtrSet st → B' ∈ BasicBlockPtrSet st.
Proof.
  intros [_ Hs _]. induction 1 as [B|B B1 B2 Hsucc _ IH]; [done|].
  intros HB. apply IH, (Hs B B1); set_solver.
Qed.

Lemma explored_calls st F G :
  explored ∅ ∅ st → F ∈ FuncPtrSet st → calls F G →
  handled st G ∧
  ∃ B, B ∈ BasicBlockPtrSet st ∧ In (CallInst (Some G)) (instructions M B).
Proof.
  intros Hex HF (B0 & B & Hentry & Hreach & Hcall).
  assert (B ∈ BasicBlockPtrSet st) as HB.
  { apply (explored_block_reach st B0); [done..|].
    apply (explored_entry _ _ _ Hex F); set_solver. }
  split; [|by exists B]. apply (explored_call _ _ _ Hex B); set_solver.
Qed.

Lemma explores_ordinary F G : explores F G → ordinary F ∧ ordinary G.
Proof. induction 1; tauto. Qed.

Lemma handled_ordinary st G : handled st G → ordinary G → G ∈ FuncPtrSet st.
Proof. intros [HG|[HG|HG]] [Hs Hb]; done. Qed.

Lemma explored_explores st F G :
  explored ∅ ∅ st → F ∈ FuncPtrSet st → explores F G → G ∈ FuncPtrSet st.
Proof.
  intros Hex HF Hexp. induction Hexp as [F _|F G H _ Hcalls Hexp IH]; [done|].
  apply IH. apply (handled_ordinary st).
  - by apply (explored_calls st F).
  - by apply explores_ordinary in Hexp as [].
Qed.

(** ** Every reachable black-listed function is reported *)

Lemma visitF_blacklisted_inv X st log r st' :
  visitF X st log r st' →
  X ∉ FuncPtrSet st →
  displayName X ∉ SinkFunctionSet cfg →
  displayName X ∈ BlackListSet cfg →
  log = [EvReport (FunctionChain st ++ [displayName X])].
Proof. by inversion 1. Qed.

Lemma blacklisted_not_entered X st log st' :
  fresh st log st' → Forall ordinary (entered_functions log) →
  displayName X ∈ BlackListSet cfg →
  X ∉ FuncPtrSet st → X ∉ FuncPtrSet st'.
Proof.
  intros [_ _ Hentered _] Hordinary Hblack Hbefore Hafter.
  rewrite Forall_forall in Hordinary.
  destruct (Hordinary X) as [_ Hnot]; [|done]. by apply Hentered.
Qed.

Lemma visit_new_blocks_report X :
  displayName X ∉ SinkFunctionSet cfg →
  displayName X ∈ BlackListSet cfg →
  (∀ F st log r st', visitF F st log r st' →
     X ∉ FuncPtrSet st →
     ∀ B, B ∈ BasicBlockPtrSet st' → B ∉ BasicBlockPtrSet st →
          In (CallInst (Some X)) (instructions M B) →
          ∃ chain, In (chain ++ [displayName X]) (reported log)) ∧
  (∀ B0 st log r st', visitB B0 st log r st' →
     X ∉ FuncPtrSet st →
     ∀ B, B ∈ BasicBlockPtrSet st' → B ∉ BasicBlockPtrSet st →
          In (CallInst (Some X)) (instructions M B) →
          ∃ chain, In (chain ++ [displayName X]) (reported log)) ∧
  (∀ Insts P st log r st', examineI Insts P st log r st' →
     X ∉ FuncPtrSet st →
     (In (CallInst (Some X)) Insts →
      ∃ chain, In (chain ++ [displayName X]) (reported log)) ∧
     ∀ B, B ∈ BasicBlockPtrSet st' → B ∉ BasicBlockPtrSet st →
          In (CallInst (Some X)) (instructions M B) →
          ∃ chain, In (chain ++ [displayName X]) (reported log)) ∧
  (∀ Succs P st log r st', visitS Succs P st log r st' →
     X ∉ FuncPtrSet st →
     ∀ B, B ∈ BasicBlockPtrSet st' → B ∉ BasicBlockPtrSet st →
          In (CallInst (Some X)) (instructions M B) →
          ∃ chain, In (chain ++ [displayName X]) (reported log)).
Proof.
  intros HXs HXb.
  pose proof visit_fresh as (FsF & FsB & FsI & FsS).
  pose proof visit_entered_ordinary as (OrF & OrB & OrI & OrS).
  assert (∀ (log1 log2 : list Event) (Q : Prop),
            ((∃ chain, In (chain ++ [displayName X]) (reported log1)) ∨
             (∃ chain, In (chain ++ [displayName X]) (reported log2))) →
            ∃ chain, In (chain ++ [displayName X]) (reported (log1 ++ log2)))
    as Hjoin.
  { intros log1 log2 _ [[chain Hin]|[chain Hin]]; exists chain;
      rewrite reported_app; apply in_or_app; auto. }
  apply visit_mutind.
  - (* memoized *) intros F st _ _ B HB Hnot. done.
  - (* sink *) intros F st _ _ _ B HB Hnot. done.
  - (* black-listed *) intros F st _ _ _ _ B HB Hnot. done.
  - (* declaration *) intros F st _ _ _ _ _ B HB Hnot. done.
  - (* body *)
    intros F st FirstBlock log r st' _ _ Hblack _ _ IH HX B HB Hnot Hcall.
    simpl. eapply IH; [|exact HB|exact Hnot|exact Hcall]. simpl.
    intros [->%elem_of_singleton|?]%elem_of_union; done.
  - (* block memoized *) intros B0 st _ _ B HB Hnot. done.
  - (* block examined *)
    intros B0 st log1 r1 st1 log2 r st' _ Hex IH1 Hsucc IH2 HX B HB Hnot Hcall.
    destruct (IH1 HX) as [Hhere Hnew1]. simpl.
    apply (Hjoin log1 log2 True).
    destruct (decide (B = B0)) as [->|Hne]; [by auto|].
    destruct (decide (B ∈ BasicBlockPtrSet st1)) as [Hmid|Hmid].
    + left. apply (Hnew1 B); [done| |done]. simpl. set_solver.
    + right. apply (IH2) with B; try done.
      eapply blacklisted_not_entered; [by eapply FsI|by eapply OrI|done..].
  - (* end of the instructions *)
    intros P st _. split; [by intros []|]. intros B HB Hnot. done.
  - (* direct call *)
    intros F Insts P st log1 r1 st1 log2 r st' HF IH1 Hrest IH2 HX.
    assert (X ∉ FuncPtrSet st1) as HX1.
    { eapply blacklisted_not_entered; [by eapply FsF|by eapply OrF|done..]. }
    destruct (IH2 HX1) as [Hhere2 Hnew2]. split.
    + intros [[= ->]|Hin]; apply (Hjoin log1 log2 True).
      * left. rewrite (visitF_blacklisted_inv _ _ _ _ _ HF); try done.
        eexists. by left.
      * right. auto.
    + intros B HB Hnot Hcall. apply (Hjoin log1 log2 True).
      destruct (decide (B ∈ BasicBlockPtrSet st1)) as [Hmid|Hmid];
        [left; by apply (IH1 HX B)|right; by apply (Hnew2 B)].
  - (* indirect call *)
    intros Insts P st log r st' _ IH HX. destruct (IH HX) as [Hhere Hnew].
    split; [|done]. intros [[=]|Hin]. auto.
  - (* other instruction *)
    intros Insts P st log r st' _ IH HX. destruct (IH HX) as [Hhere Hnew].
    split; [|done]. intros [[=]|Hin]. auto.
  - (* end of the successors *) intros P st _ B HB Hnot. done.
  - (* successor *)
    intros B0 Succs P st log1 r1 st1 log2 r st' HB0 IH1 Hrest IH2 HX
      B HB Hnot Hcall.
    apply (Hjoin log1 log2 True).
    destruct (decide (B ∈ BasicBlockPtrSet st1)) as [Hmid|Hmid];
      [left; by apply (IH1 HX B)|right; apply IH2 with B; try done].
    eapply blacklisted_not_entered; [by eapply FsB|by eapply OrB|done..].
  - (* null successor *) intros Succs P st log r st' _ IH. done.
Qed.

Lemma violation_path_last F p :
  violation_path F p →
  ∃ X, last p = Some X ∧
       (displayName X ∉ SinkFunctionSet cfg) ∧
       displayName X ∈ BlackListSet cfg ∧
       (X = F ∨ ∃ H, explores F H ∧ calls H X).
Proof.
  induction 1 as [F Hs Hb|F G p Hs Hb Hcalls Hp (X & Hlast & HXs & HXb & IH)].
  - exists F. split_and!; [done..|by left].
  - exists X. split_and!; try done.
    + destruct p as [|G' p]; [by inversion Hp|]. by rewrite last_cons, Hlast.
    + right. destruct IH as [->|(H & Hexp & HHX)].
      * exists F. split; [by apply explores_here|done].
      * exists H. split; [|done]. by apply explores_call with G.
Qed.

Lemma reported_in_text st log st' chain :
  frame st log st' → chain ≠ [] → In chain (reported log) →
  ∃ before after,
    errs st' = errs st +:+ before +:+ report_line chain +:+ after.
Proof.
  intros [_ _ _ Herrs] Hne (l1 & l2 & Hsplit)%in_split.
  exists (reports_text l1), (reports_text l2).
  rewrite Herrs, Hsplit, reports_text_app. simpl.
  by rewrite report_text_line.
Qed.

Lemma violation_in_log F st log r st' p X :
  FuncPtrSet st = ∅ →
  BasicBlockPtrSet st = ∅ →
  visitF F st log r st' →
  violation_path F p →
  last p = Some X →
  r = false ∧ ∃ chain, In (chain ++ [displayName X]) (reported log).
Proof.
  intros Hf Hb Hlog Hp Hlast.
  assert (∃ chain, In (chain ++ [displayName X]) (reported log))
    as [chain Hin].
  { destruct (violation_path_last _ _ Hp) as (X' & Hlast' & HXs & HXb & Hfrom).
    assert (X' = X) as -> by congruence.
    assert (X ∉ FuncPtrSet st) as HX by (rewrite Hf; set_solver).
    destruct Hfrom as [->|(H & Hexp & Hcalls)].
    - rewrite (visitF_blacklisted_inv _ _ _ _ _ Hlog); try done.
      eexists. by left.
    - destruct (proj1 visit_explored _ _ _ _ _ Hlog ∅ ∅) as [Hex HF];
        [by apply explored_fresh_state|].
      assert (H ∈ FuncPtrSet st') as HH.
      { apply (explored_explores st' F); [done| |done].
        apply (handled_ordinary st'); [done|].
        by apply explores_ordinary in Hexp as []. }
      destruct (explored_calls st' H X Hex HH Hcalls) as [_ (B & HB & Hcall)].
      apply (proj1 (visit_new_blocks_report X HXs HXb) _ _ _ _ _ Hlog HX B);
        [done| |done].
      rewrite Hb. set_solver. }
  split; [|by exists chain].
  destruct r; [|done].
  rewrite (proj1 (proj1 visit_result _ _ _ _ _ Hlog) eq_refl) in Hin.
  by destruct Hin.
Qed.

(** X8. Started with empty pointer sets, a visit misses no violation: for
    every path of the call graph from the visited function through
    ordinary functions to a black-listed function that is not a sink, the
    visit returns [false] and writes a report line whose chain ends with
    the name of that black-listed function. *)
Theorem every_violation_is_reported (fuel : nat) (F : Function)
    (st : State) (r : bool) (st' : State) (p : list Function)
    (X : Function) :
  FuncPtrSet st = ∅ →
  BasicBlockPtrSet st = ∅ →
  traverseFunction fuel F st = Some (r, st') →
  violation_path F p →
  last p = Some X →
  r = false ∧
  ∃ before chain after,
    errs st' = errs st +:+ before +:+
      report_line (chain ++ [displayName X]) +:+ after.
Proof.
  intros Hf Hb [log Hlog]%traverseFunction_visit Hp Hlast.
  pose proof (proj1 visit_frame _ _ _ _ _ Hlog) as Hframe.
  destruct (violation_in_log _ _ _ _ _ _ _ Hf Hb Hlog Hp Hlast)
    as [-> [chain Hin]].
  split; [done|].
  assert (chain ++ [displayName X] ≠ []) as Hne by by destruct chain.
  destruct (reported_in_text _ _ _ _ Hframe Hne Hin)
    as (before & after & Herrs).
  by exists before, chain, after.
Qed.

(** X9. Started with empty pointer sets, the result of a visit decides
    reachability: it is [true] exactly when the call graph has no path
    from the visited function through ordinary functions to a
    black-listed function that is not a sink. *)
Theorem clean_iff_no_violation_path (fuel : nat) (F : Function)
    (st : State) (r : bool) (st' : State) :
  FuncPtrSet st = ∅ →
  BasicBlockPtrSet st = ∅ →
  traverseFunction fuel F st = Some (r, st') →
  r = true ↔ ∀ p, ¬ violation_path F p.
Proof.
  intros Hf Hb Hrun. split.
  - intros -> p Hp.
    destruct (violation_path_last _ _ Hp) as (X & Hlast & _).
    apply traverseFunction_visit in Hrun as [log Hlog].
    by destruct (violation_in_log _ _ _ _ _ _ _ Hf Hb Hlog Hp Hlast).
  - intros Hnone.
    destruct (traverseFunction_output _ _ _ _ _ Hrun) as (ps & Hps & _ & Hres).
    apply Hres. destruct ps as [|p ps]; [done|].
    apply Forall_cons in Hps as [Hp _]. by apply Hnone in Hp.
Qed.

(** ** What the traversal covers *)

Lemma visit_entered_explores :
  (∀ F st log r st', visitF F st log r st' →
     Forall (explores F) (entered_functions log) ∧
     Forall (explores_block F) (entered_blocks log)) ∧
  (∀ B st log r st', visitB B st log r st' →
     Forall (λ G, ∃ B' H, block_reach B B' ∧
                          In (CallInst (Some H)) (instructions M B') ∧
                          explores H G) (entered_functions log) ∧
     Forall (λ B2, block_reach B B2 ∨
                   ∃ B' H, block_reach B B' ∧
                           In (CallInst (Some H)) (instructions M B') ∧
                           explores_block H B2) (entered_blocks log)) ∧
  (∀ Insts P st log r st', examineI Insts P st log r st' →
     Forall (λ G, ∃ H, In (CallInst (Some H)) Insts ∧ explores H G)
       (entered_functions log) ∧
     Forall (λ B2, ∃ H, In (CallInst (Some H)) Insts ∧ explores_block H B2)
       (entered_blocks log)) ∧
  (∀ Succs P st log r st', visitS Succs P st log r st' →
     Forall (λ G, ∃ B0 B' H, In (Some B0) Succs ∧ block_reach B0 B' ∧
                             In (CallInst (Some H)) (instructions M B') ∧
                             explores H G) (entered_functions log) ∧
     Forall (λ B2, ∃ B0, In (Some B0) Succs ∧
                   (block_reach B0 B2 ∨
                    ∃ B' H, block_reach B0 B' ∧
                            In (CallInst (Some H)) (instructions M B') ∧
                            explores_block H B2)) (entered_blocks log)).
Proof.
  apply visit_mutind.
  - (* memoized *) intros; split; constructor.
  - (* sink *) intros; split; constructor.
  - (* black-listed *) intros; split; constructor.
  - (* declaration *)
    intros F st _ Hs Hb _. split; [|constructor].
    repeat constructor; done.
  - (* body *)
    intros F st FirstBlock log r st' _ Hs Hb Hentry _ [IHf IHb].
    assert (ordinary F) as Hord by done. simpl. split.
    + constructor; [by apply explores_here|].
      eapply Forall_impl; [exact IHf|].
      intros G (B' & H & Hreach & Hcall & Hexp).
      apply explores_call with H; [done| |done]. by exists FirstBlock, B'.
    + eapply Forall_impl; [exact IHb|].
      intros B2 [Hreach|(B' & H & Hreach & Hcall & G & B0 & Hexp & HB0 & HB2)].
      * exists F, FirstBlock. split_and!; [by apply explores_here|done..].
      * exists G, B0. split_and!; [|done..].
        apply explores_call with H; [done| |done]. by exists FirstBlock, B'.
  - (* block memoized *) intros; split; constructor.
  - (* block examined *)
    intros B st log1 r1 st1 log2 r st' _ _ [IH1f IH1b] _ [IH2f IH2b]. simpl.
    rewrite entered_functions_app, entered_blocks_app. split.
    + apply Forall_app. split.
      * eapply Forall_impl; [exact IH1f|].
        intros G (H & Hcall & Hexp). exists B, H.
        split_and!; [constructor|done..].
      * eapply Forall_impl; [exact IH2f|].
        intros G (B0 & B' & H & HB0 & Hreach & Hcall & Hexp). exists B', H.
        split_and!; [by eapply block_reach_step|done..].
    + constructor; [left; constructor|]. apply Forall_app. split.
      * eapply Forall_impl; [exact IH1b|].
        intros B2 (H & Hcall & Hexp). right. exists B, H.
        split_and!; [constructor|done..].
      * eapply Forall_impl; [exact IH2b|].
        intros B2 (B0 & HB0 & [Hreach|(B' & H & Hreach & Hcall & Hexp)]).
        -- left. by eapply block_reach_step.
        -- right. exists B', H. split_and!; [by eapply block_reach_step|done..].
  - (* end of the instructions *) intros; split; constructor.
  - (* direct call *)
    intros F Insts P st log1 r1 st1 log2 r st' _ [IH1f IH1b] _ [IH2f IH2b].
    rewrite entered_functions_app, entered_blocks_app.
    split; apply Forall_app; split.
    + eapply Forall_impl; [exact IH1f|]. intros G HG. exists F. by split; [left|].
    + eapply Forall_impl; [exact IH2f|].
      intros G (H & HH & Hexp). exists H. by split; [right|].
    + eapply Forall_impl; [exact IH1b|]. intros B HB. exists F. by split; [left|].
    + eapply Forall_impl; [exact IH2b|].
      intros B (H & HH & Hexp). exists H. by split; [right|].
  - (* indirect call *)
    intros Insts P st log r st' _ [IHf IHb]. split.
    + eapply Forall_impl; [exact IHf|].
      intros G (H & HH & Hexp). exists H. by split; [right|].
    + eapply Forall_impl; [exact IHb|].
      intros B (H & HH & Hexp). exists H. by split; [right|].
  - (* other instruction *)
    intros Insts P st log r st' _ [IHf IHb]. split.
    + eapply Forall_impl; [exact IHf|].
      intros G (H & HH & Hexp). exists H. by split; [right|].
    + eapply Forall_impl; [exact IHb|].
      intros B (H & HH & Hexp). exists H. by split; [right|].
  - (* end of the successors *) intros; split; constructor.
  - (* successor *)
    intros B Succs P st log1 r1 st1 log2 r st' _ [IH1f IH1b] _ [IH2f IH2b].
    rewrite entered_functions_app, entered_blocks_app.
    split; apply Forall_app; split.
    + eapply Forall_impl; [exact IH1f|].
      intros G (B' & H & Hreach & Hcall & Hexp). exists B, B', H.
      by split_and!; [left|..].
    + eapply Forall_impl; [exact IH2f|].
      intros G (B0 & B' & H & HB0 & Hrest). exists B0, B', H.
      split; [by right|done].
    + eapply Forall_impl; [exact IH1b|].
      intros B2 HB2. exists B. by split; [left|].
    + eapply Forall_impl; [exact IH2b|].
      intros B2 (B0 & HB0 & Hrest). exists B0. by split; [right|].
  - (* null successor *)
    intros Succs P st log r st' _ [IHf IHb]. split.
    + eapply Forall_impl; [exact IHf|].
      intros G (B0 & B' & H & HB0 & Hrest). exists B0, B', H.
      split; [by right|done].
    + eapply Forall_impl; [exact IHb|].
      intros B2 (B0 & HB0 & Hrest). exists B0. by split; [right|].
Qed.

(** X10. Started with empty pointer sets, a visit ends with exactly the
    functions it explores in the set of visited functions (the ordinary
    functions reachable from the visited one through calls of ordinary
    functions), and with exactly the blocks reachable from their entry
    blocks in the set of visited blocks. *)
Theorem visited_sets_are_what_is_reachable (fuel : nat) (F : Function)
    (st : State) (r : bool) (st' : State) :
  FuncPtrSet st = ∅ →
  BasicBlockPtrSet st = ∅ →
  traverseFunction fuel F st = Some (r, st') →
  (∀ G, G ∈ FuncPtrSet st' ↔ explores F G) ∧
  (∀ B, B ∈ BasicBlockPtrSet st' ↔ explores_block F B).
Proof.
  intros Hf Hb [log Hlog]%traverseFunction_visit.
  pose proof (proj1 visit_fresh _ _ _ _ _ Hlog) as [_ _ Hfunctions Hblocks].
  pose proof (proj1 visit_entered_explores _ _ _ _ _ Hlog) as [Hsf Hsb].
  rewrite Forall_forall in Hsf. rewrite Forall_forall in Hsb.
  destruct (proj1 visit_explored _ _ _ _ _ Hlog ∅ ∅) as [Hex HF];
    [by apply explored_fresh_state|].
  assert (∀ G, explores F G → G ∈ FuncPtrSet st') as Hcomplete.
  { intros G Hexp. apply (explored_explores st' F); [done| |done].
    apply (handled_ordinary st'); [done|].
    by apply explores_ordinary in Hexp as []. }
  split.
  - intros G. split; [|by apply Hcomplete].
    intros HG. apply Hsf, Hfunctions. split; [done|]. rewrite Hf. set_solver.
  - intros B. split.
    + intros HB. apply Hsb, Hblocks. split; [done|]. rewrite Hb. set_solver.
    + intros (G & B0 & Hexp & Hentry & Hreach).
      apply (explored_block_reach st' B0); [done..|].
      apply (explored_entry _ _ _ Hex G); [by apply Hcomplete|set_solver|done].
Qed.

(** ** Reports come from callees that are not memoized *)

Lemma reported_app_not_nil (log1 log2 : list Event) :
  reported (log1 ++ log2) ≠ [] → reported log1 ≠ [] ∨ reported log2 ≠ [].
Proof.
  rewrite reported_app. destruct (reported log1); [by right|by left].
Qed.

Lemma visit_reports_fresh_callee :
  (∀ F st log r st', visitF F st log r st' →
     reported log ≠ [] →
     displayName F ∈ BlackListSet cfg ∨
     ∃ G, calls F G ∧ (G ∉ FuncPtrSet st) ∧
          displayName G ∉ SinkFunctionSet cfg) ∧
  (∀ B st log r st', visitB B st log r st' →
     reported log ≠ [] →
     ∃ B' G, block_reach B B' ∧
             In (CallInst (Some G)) (instructions M B') ∧
             (G ∉ FuncPtrSet st) ∧ displayName G ∉ SinkFunctionSet cfg) ∧
  (∀ Insts P st log r st', examineI Insts P st log r st' →
     reported log ≠ [] →
     ∃ G, In (CallInst (Some G)) Insts ∧
          (G ∉ FuncPtrSet st) ∧ displayName G ∉ SinkFunctionSet cfg) ∧
  (∀ Succs P st log r st', visitS Succs P st log r st' →
     reported log ≠ [] →
     ∃ B0 B' G, In (Some B0) Succs ∧ block_reach B0 B' ∧
                In (CallInst (Some G)) (instructions M B') ∧
                (G ∉ FuncPtrSet st) ∧ displayName G ∉ SinkFunctionSet cfg).
Proof.
  pose proof visit_frame as (FrF & FrB & FrI & FrS).
  apply visit_mutind.
  - (* memoized *) done.
  - (* sink *) done.
  - (* black-listed *) intros F st _ _ Hblack _. by left.
  - (* declaration *) done.
  - (* body *)
    intros F st FirstBlock log r st' _ _ _ Hentry _ IH Hne. right.
    destruct (IH Hne) as (B' & G & Hreach & Hcall & HG & Hsink).
    exists G. split_and!; [by exists FirstBlock, B'| |done].
    intros HG'. apply HG. simpl. set_solver.
  - (* block memoized *) done.
  - (* block examined *)
    intros B st log1 r1 st1 log2 r st' _ Hex IH1 _ IH2 Hne. simpl in Hne.
    apply reported_app_not_nil in Hne as [Hne|Hne].
    + destruct (IH1 Hne) as (G & Hcall & HG & Hsink).
      exists B, G. split_and!; [constructor|done..].
    + destruct (IH2 Hne) as (B0 & B' & G & HB0 & Hreach & Hcall & HG & Hsink).
      exists B', G. split_and!; [by eapply block_reach_step|done| |done].
      apply FrI in Hex as [_ Hf _ _]. intros HG'. apply HG, Hf, HG'.
  - (* end of the instructions *) done.
  - (* direct call *)
    intros F Insts P st log1 r1 st1 log2 r st' HF IH1 _ IH2 Hne.
    apply reported_app_not_nil in Hne as [Hne|Hne].
    + exists F. split; [by left|]. clear IH1.
      inversion HF; subst; simpl in Hne; done.
    + destruct (IH2 Hne) as (G & Hcall & HG & Hsink).
      exists G. split_and!; [by right| |done].
      apply FrF in HF as [_ Hf _ _]. intros HG'. apply HG, Hf, HG'.
  - (* indirect call *)
    intros Insts P st log r st' _ IH Hne.
    destruct (IH Hne) as (G & Hcall & Hrest). exists G. by split; [right|].
  - (* other instruction *)
    intros Insts P st log r st' _ IH Hne.
    destruct (IH Hne) as (G & Hcall & Hrest). exists G. by split; [right|].
  - (* end of the successors *) done.
  - (* successor *)
    intros B Succs P st log1 r1 st1 log2 r st' HB IH1 _ IH2 Hne.
    apply reported_app_not_nil in Hne as [Hne|Hne].
    + destruct (IH1 Hne) as (B' & G & Hrest). exists B, B', G.
      by split; [left|].
    + destruct (IH2 Hne) as (B0 & B' & G & HB0 & Hreach & Hcall & HG & Hsink).
      exists B0, B', G. split_and!; [by right|done..| |done].
      apply FrB in HB as [_ Hf _ _]. intros HG'. apply HG, Hf, HG'.
  - (* null successor *)
    intros Succs P st log r st' _ IH Hne.
    destruct (IH Hne) as (B0 & B' & G & HB0 & Hrest). exists B0, B', G.
    by split; [right|].
Qed.

(** X11. A visit of a function that is not black-listed, all of whose
    direct callees are memoized or sinks, returns [true] and writes
    nothing, whatever those callees lead to: a violation behind a
    function that was visited before is not reported again for a second
    caller. *)
Theorem shared_callee_is_not_reported_again (fuel : nat) (F : Function)
    (st : State) (r : bool) (st' : State) :
  displayName F ∉ BlackListSet cfg →
  (∀ G, calls F G →
        G ∈ FuncPtrSet st ∨ displayName G ∈ SinkFunctionSet cfg) →
  traverseFunction fuel F st = Some (r, st') →
  r = true ∧ errs st' = errs st.
Proof.
  intros Hblack Hcallees [log Hlog]%traverseFunction_visit.
  assert (reported log = []) as Hnone.
  { destruct (reported log) as [|chain chains] eqn:Hrep; [done|].
    destruct (proj1 visit_reports_fresh_callee _ _ _ _ _ Hlog)
      as [?|(G & Hcalls & HG & Hsink)]; [by rewrite Hrep|done|].
    by destruct (Hcallees G Hcalls). }
  split.
  - by apply (proj1 visit_result _ _ _ _ _ Hlog).
  - by apply (frame_nothing_written _ _ _ (proj1 visit_frame _ _ _ _ _ Hlog)).
Qed.

(** ** The loops run in order *)

(** X16. The loop over the instructions of a block handles them in order:
    on a list in two parts it is the loop on the first part followed, from
    the flag and state that one ends in, by the loop on the second part;
    and so is the loop over the successors.  Reports are therefore written
    in the order of the call sites. *)
Theorem loops_run_in_order (traverseF : Function → Visit bool)
    (traverseB : BasicBlock → Visit bool)
    (Insts1 Insts2 : list Instruction)
    (Succs1 Succs2 : list (option BasicBlock))
    (Passed : bool) (st : State) :
  examineBlock_loop traverseF (Insts1 ++ Insts2) Passed st
  = match examineBlock_loop traverseF Insts1 Passed st with
    | Some (Passed1, st1) => examineBlock_loop traverseF Insts2 Passed1 st1
    | None => None
    end ∧
  successors_loop traverseB (Succs1 ++ Succs2) Passed st
  = match successors_loop traverseB Succs1 Passed st with
    | Some (Passed1, st1) => successors_loop traverseB Succs2 Passed1 st1
    | None => None
    end.
Proof.
  split.
  - revert Passed st.
    induction Insts1 as [|[[F|]|] Insts1 IH]; intros Passed st; simpl;
      [done| |apply IH..].
    unfold bind. destruct (traverseF F st) as [[r1 st1]|]; [|done]. apply IH.
  - revert Passed st.
    induction Succs1 as [|[B|] Succs1 IH]; intros Passed st; simpl;
      [done| |apply IH].
    unfold bind. destruct (traverseB B st) as [[r1 st1]|]; [|done]. apply IH.
Qed.

(** ** No function appears twice in a reported chain *)

Lemma simple_chain_from_earlier st log st1 G chain :
  frame st log st1 →
  simple_chain_from st1 G chain → simple_chain_from st G chain.
Proof.
  intros [Hc Hf _ _] (p & Hp & Hnd & Hfresh & ->).
  exists p. split_and!; [done..| |by rewrite Hc].
  intros H HH Hord HH'. by apply (Hfresh H HH Hord), Hf.
Qed.

Lemma visit_reports_simple :
  (∀ F st log r st', visitF F st log r st' →
     Forall (simple_chain_from st F) (reported log)) ∧
  (∀ B st log r st', visitB B st log r st' →
     Forall (λ chain, ∃ B' G, block_reach B B' ∧
                              In (CallInst (Some G)) (instructions M B') ∧
                              simple_chain_from st G chain)
       (reported log)) ∧
  (∀ Insts P st log r st', examineI Insts P st log r st' →
     Forall (λ chain, ∃ G, In (CallInst (Some G)) Insts ∧
                           simple_chain_from st G chain)
       (reported log)) ∧
  (∀ Succs P st log r st', visitS Succs P st log r st' →
     Forall (λ chain, ∃ B0 B' G, In (Some B0) Succs ∧ block_reach B0 B' ∧
                                 In (CallInst (Some G)) (instructions M B') ∧
                                 simple_chain_from st G chain)
       (reported log)).
Proof.
  pose proof visit_frame as (FrF & FrB & FrI & FrS).
  apply visit_mutind.
  - (* memoized *) intros; constructor.
  - (* sink *) intros; constructor.
  - (* black-listed *)
    intros F st HF Hsink Hblack. repeat constructor.
    exists [F]. split_and!; [by constructor|apply NoDup_singleton| |done].
    intros H ->%list_elem_of_singleton _. done.
  - (* declaration *) intros; constructor.
  - (* body *)
    intros F st FirstBlock log r st' HF Hsink Hblack Hentry _ IH. simpl in *.
    eapply Forall_impl; [exact IH|].
    intros chain (B' & G & Hreach & Hcall & p & Hp & Hnd & Hfresh & ->).
    simpl in *.
    assert (F ∉ p) as HFp.
    { intros HFp. apply (Hfresh F HFp); [done|]. set_solver. }
    exists (F :: p). split_and!.
    + apply violation_below with G; try done. by exists FirstBlock, B'.
    + by apply NoDup_cons.
    + intros H [->|HH]%elem_of_cons Hord; [done|].
      intros HH'. apply (Hfresh H HH Hord). set_solver.
    + simpl. by rewrite <- app_assoc.
  - (* block memoized *) intros; constructor.
  - (* block examined *)
    intros B st log1 r1 st1 log2 r st' HB Hex IH1 _ IH2. simpl.
    rewrite reported_app. apply Forall_app. split.
    + eapply Forall_impl; [exact IH1|].
      intros chain (G & Hcall & Hchain). exists B, G.
      split_and!; [constructor|done|].
      by apply (simple_chain_from_earlier st [EvBlock B] (insert_block B st)),
               Hchain; [apply frame_insert_block].
    + apply FrI in Hex.
      eapply Forall_impl; [exact IH2|].
      intros chain (B0 & B' & G & HB0 & Hreach & Hcall & Hchain).
      exists B', G. split_and!; [by eapply block_reach_step|done|].
      apply (simple_chain_from_earlier st [EvBlock B] (insert_block B st));
        [apply frame_insert_block|].
      by apply (simple_chain_from_earlier _ log1 st1).
  - (* end of the instructions *) intros; constructor.
  - (* direct call *)
    intros F Insts P st log1 r1 st1 log2 r st' HF IH1 _ IH2.
    rewrite reported_app. apply Forall_app. split.
    + eapply Forall_impl; [exact IH1|].
      intros chain Hchain. exists F. split; [by left|done].
    + apply FrF in HF.
      eapply Forall_impl; [exact IH2|].
      intros chain (G & HG & Hchain). exists G. split; [by right|].
      by apply (simple_chain_from_earlier _ log1 st1).
  - (* indirect call *)
    intros Insts P st log r st' _ IH.
    eapply Forall_impl; [exact IH|].
    intros chain (G & HG & Hchain). exists G. split; [by right|done].
  - (* other instruction *)
    intros Insts P st log r st' _ IH.
    eapply Forall_impl; [exact IH|].
    intros chain (G & HG & Hchain). exists G. split; [by right|done].
  - (* end of the successors *) intros; constructor.
  - (* successor *)
    intros B Succs P st log1 r1 st1 log2 r st' HB IH1 _ IH2.
    rewrite reported_app. apply Forall_app. split.
    + eapply Forall_impl; [exact IH1|].
      intros chain (B' & G & Hrest). exists B, B', G. split; [by left|done].
    + apply FrB in HB.
      eapply Forall_impl; [exact IH2|].
      intros chain (B0 & B' & G & HB0 & Hreach & Hcall & Hchain).
      exists B0, B', G. split_and!; [by right|done..|].
      by apply (simple_chain_from_earlier _ log1 st1).
  - (* null successor *)
    intros Succs P st log r st' _ IH.
    eapply Forall_impl; [exact IH|].
    intros chain (B0 & B' & G & HB0 & Hrest). exists B0, B', G.
    split; [by right|done].
Qed.

Lemma reports_text_simple_paths (st : State) (F : Function)
    (chains : list (list string)) :
  Forall (simple_chain_from st F) chains →
  ∃ ps, Forall (λ p, violation_path F p ∧ NoDup p) ps ∧
        reports_text chains =
          lines_text
            (map (λ p, report_line (FunctionChain st ++ map displayName p))
               ps).
Proof.
  induction 1 as [|chain chains (p & Hp & Hnd & _ & ->) _ (ps & Hps & Htext)].
  - by exists [].
  - exists (p :: ps). split; [by constructor|].
    simpl. rewrite Htext, report_text_line; [done|].
    destruct (violation_path_head _ _ Hp) as [p' ->].
    by destruct (FunctionChain st).
Qed.

(** X17. Every chain a visit reports follows a path of the call graph on
    which no function appears twice: a report never shows a cycle, and
    its chain holds at most one name for each function of the module. *)
Theorem reported_chains_are_simple_paths (fuel : nat) (F : Function)
    (st : State) (r : bool) (st' : State) :
  traverseFunction fuel F st = Some (r, st') →
  ∃ ps : list (list Function),
    Forall (λ p, violation_path F p ∧ NoDup p) ps ∧
    errs st' = errs st +:+
      lines_text
        (map (λ p, report_line (FunctionChain st ++ map displayName p)) ps).
Proof.
  intros [log Hlog]%traverseFunction_visit.
  pose proof (proj1 visit_frame _ _ _ _ _ Hlog) as [_ _ _ Herrs].
  destruct (reports_text_simple_paths st F (reported log))
    as (ps & Hps & Htext); [by apply visit_reports_simple in Hlog|].
  exists ps. split; [done|]. by rewrite Herrs, Htext.
Qed.

End Pass.


(** ** The same graph at other addresses gives the same run *)

Section Renaming.

Variable cfg : Config.
Variable cxa_demangle : string → option string.
Variables (σf : Function → Function) (σb : BasicBlock → BasicBlock).
Variables M M' : Module.
Hypothesis same : same_graph σf σb M M'.

Lemma displayName_renamed F :
  displayName cxa_demangle M' (σf F) = displayName cxa_demangle M F.
Proof. unfold displayName. by rewrite (same_getName _ _ _ _ same). Qed.

Lemma renamed_function_visited F st :
  σf F ∈ FuncPtrSet (rename_state σf σb st) ↔ F ∈ FuncPtrSet st.
Proof.
  pose proof (same_functions _ _ _ _ same). simpl. rewrite elem_of_map. split.
  - by intros (G & ->%(inj σf) & HG).
  - intros HF. by exists F.
Qed.

Lemma renamed_block_visited B st :
  σb B ∈ BasicBlockPtrSet (rename_state σf σb st) ↔ B ∈ BasicBlockPtrSet st.
Proof.
  pose proof (same_blocks _ _ _ _ same). simpl. rewrite elem_of_map. split.
  - by intros (G & ->%(inj σb) & HG).
  - intros HB. by exists B.
Qed.

Lemma rename_state_insert_function F st :
  rename_state σf σb (insert_function F st)
  = insert_function (σf F) (rename_state σf σb st).
Proof.
  unfold rename_state, insert_function; simpl.
  by rewrite set_map_union_L, set_map_singleton_L.
Qed.

Lemma rename_state_insert_block B st :
  rename_state σf σb (insert_block B st)
  = insert_block (σb B) (rename_state σf σb st).
Proof.
  unfold rename_state, insert_block; simpl.
  by rewrite set_map_union_L, set_map_singleton_L.
Qed.

Lemma examineBlock_loop_renamed (t t' : Function → Visit bool) :
  (∀ F st, t' (σf F) (rename_state σf σb st)
           = option_map (rename_result σf σb) (t F st)) →
  ∀ Insts Passed st,
    examineBlock_loop t' (map (rename_instruction σf) Insts) Passed
      (rename_state σf σb st)
    = option_map (rename_result σf σb) (examineBlock_loop t Insts Passed st).
Proof.
  intros Ht Insts.
  induction Insts as [|[[F|]|] Insts IH]; intros Passed st; simpl;
    [done| |apply IH..].
  unfold bind. rewrite Ht. destruct (t F st) as [[r1 st1]|]; [|done].
  apply IH.
Qed.

Lemma successors_loop_renamed (t t' : BasicBlock → Visit bool) :
  (∀ B st, t' (σb B) (rename_state σf σb st)
           = option_map (rename_result σf σb) (t B st)) →
  ∀ Succs Passed st,
    successors_loop t' (rename_successors σb Succs) Passed
      (rename_state σf σb st)
    = option_map (rename_result σf σb) (successors_loop t Succs Passed st).
Proof.
  intros Ht Succs.
  induction Succs as [|[B|] Succs IH]; intros Passed st; simpl;
    [done| |apply IH].
  unfold bind. rewrite Ht. destruct (t B st) as [[r1 st1]|]; [|done].
  apply IH.
Qed.

Lemma traverse_renamed (fuel : nat) :
  (∀ F st,
     traverseFunction cfg cxa_demangle M' fuel (σf F) (rename_state σf σb st)
     = option_map (rename_result σf σb)
         (traverseFunction cfg cxa_demangle M fuel F st)) ∧
  (∀ B st,
     traverseBasicBlock cfg cxa_demangle M' fuel (σb B)
       (rename_state σf σb st)
     = option_map (rename_result σf σb)
         (traverseBasicBlock cfg cxa_demangle M fuel B st)).
Proof.
  induction fuel as [|fuel [IHF IHB]]; [by split|]. split.
  - intros F st. rewrite !traverseFunction_unfold, displayName_renamed.
    rewrite (decide_ext _ _ _ _ (renamed_function_visited F st)).
    repeat case_decide; try done.
    rewrite (same_getEntryBlock _ _ _ _ same).
    destruct (getEntryBlock M F) as [FirstBlock|]; simpl.
    + change (push_back ?n (rename_state σf σb st))
        with (rename_state σf σb (push_back n st)).
      rewrite <- rename_state_insert_function, IHB.
      by destruct (traverseBasicBlock cfg cxa_demangle M fuel FirstBlock _)
        as [[r1 st1]|].
    + unfold rename_result; simpl. by rewrite rename_state_insert_function.
  - intros B st. rewrite !traverseBasicBlock_unfold.
    rewrite (decide_ext _ _ _ _ (renamed_block_visited B st)).
    case_decide; [done|].
    unfold examineBlock, successors.
    rewrite (same_instructions _ _ _ _ same), (same_getTerminator _ _ _ _ same).
    rewrite <- rename_state_insert_block.
    rewrite (examineBlock_loop_renamed _ _ IHF).
    destruct (examineBlock_loop _ (instructions M B) _ _) as [[r1 st1]|];
      [|done].
    simpl. destruct (getTerminator M B) as [Succs|]; simpl; [|done].
    apply (successors_loop_renamed _ _ IHB).
Qed.

(** A fresh pass object is in the same state at any addresses. *)
Lemma rename_state_initial_state :
  rename_state σf σb initial_state = initial_state.
Proof. unfold rename_state, initial_state; simpl. by rewrite !set_map_empty. Qed.

Lemma runOnModule_renamed (fuel : nat) (st : State) :
  runOnModule cfg cxa_demangle M' fuel (rename_state σf σb st)
  = option_map (rename_result σf σb) (runOnModule cfg cxa_demangle M fuel st).
Proof.
  unfold runOnModule. rewrite (same_getFunction _ _ _ _ same).
  destruct (getFunction M (SourceFunction cfg)) as [Source|]; simpl; [|done].
  unfold bind. rewrite (proj1 (traverse_renamed fuel)).
  by destruct (traverseFunction cfg cxa_demangle M fuel Source st)
    as [[r1 st1]|].
Qed.

End Renaming.

(** C9, as amended.  Two runs with the same configuration on the same
    graph, built at the same or at other addresses, that start from the
    same state of the pass, as two fresh pass objects do: the results are
    equal and so are the chain and the text written, whatever recursion
    depth each run was allowed.  The pointer sets are members of the pass
    object and are never cleared, so a second run on the same object
    starts from another state and need not write the same text. *)
Theorem runs_agree (cfg : Config) (cxa_demangle : string → option string)
    (σf : Function → Function) (σb : BasicBlock → BasicBlock)
    (M M' : Module) (fuel1 fuel2 : nat) (st : State)
    (out1 out2 : bool * State) :
  same_graph σf σb M M' →
  runOnModule cfg cxa_demangle M fuel1 st = Some out1 →
  runOnModule cfg cxa_demangle M' fuel2 (rename_state σf σb st) = Some out2 →
  out2.1 = out1.1 ∧
  errs out2.2 = errs out1.2 ∧
  FunctionChain out2.2 = FunctionChain out1.2 ∧
  out2 = rename_result σf σb out1.
Proof.
  intros Hsame Hrun1 Hrun2.
  assert (runOnModule cfg cxa_demangle M' fuel1 (rename_state σf σb st)
          = Some (rename_result σf σb out1)) as Hrun1'.
  { by rewrite (runOnModule_renamed cfg cxa_demangle σf σb M M' Hsame), Hrun1. }
  rewrite (runOnModule_fuel_irrelevant _ _ _ _ _ _ _ _ Hrun2 Hrun1').
  done.
Qed.


(** ** The traversal reads only direct calls and successors *)

Lemma examineBlock_loop_callees (t : Function → Visit bool)
    (Insts : list Instruction) (Passed : bool) (st : State) :
  examineBlock_loop t Insts Passed st
  = examineBlock_loop t
      (map (λ F, CallInst (Some F)) (direct_callees Insts)) Passed st.
Proof.
  revert Passed st.
  induction Insts as [|[[F|]|] Insts IH]; intros Passed st; simpl;
    [done| |apply IH..].
  unfold bind. destruct (t F st) as [[r1 st1]|]; [|done]. apply IH.
Qed.

Lemma successors_loop_present (t : BasicBlock → Visit bool)
    (Succs : list (option BasicBlock)) (Passed : bool) (st : State) :
  successors_loop t Succs Passed st
  = successors_loop t (map Some (omap id Succs)) Passed st.
Proof.
  revert Passed st.
  induction Succs as [|[B|] Succs IH]; intros Passed st; simpl;
    [done| |apply IH].
  unfold bind. destruct (t B st) as [[r1 st1]|]; [|done]. apply IH.
Qed.

Lemma examineBlock_loop_ext (t t' : Function → Visit bool) :
  (∀ F st, t F st = t' F st) →
  ∀ Insts Passed st,
    examineBlock_loop t Insts Passed st = examineBlock_loop t' Insts Passed st.
Proof.
  intros Ht Insts.
  induction Insts as [|[[F|]|] Insts IH]; intros Passed st; simpl;
    [done| |apply IH..].
  unfold bind. rewrite Ht. destruct (t' F st) as [[r1 st1]|]; [|done].
  apply IH.
Qed.

Lemma successors_loop_ext (t t' : BasicBlock → Visit bool) :
  (∀ B st, t B st = t' B st) →
  ∀ Succs Passed st,
    successors_loop t Succs Passed st = successors_loop t' Succs Passed st.
Proof.
  intros Ht Succs.
  induction Succs as [|[B|] Succs IH]; intros Passed st; simpl;
    [done| |apply IH].
  unfold bind. rewrite Ht. destruct (t' B st) as [[r1 st1]|]; [|done].
  apply IH.
Qed.

Lemma successors_present (M : Module) (B : BasicBlock) :
  omap id (successors M B) = present_successors (getTerminator M B).
Proof. unfold successors. by destruct (getTerminator M B). Qed.

Lemma traverse_same_edges (cfg : Config)
    (cxa_demangle : string → option string) (M M' : Module) (fuel : nat) :
  same_edges M M' →
  (∀ F st, traverseFunction cfg cxa_demangle M' fuel F st
           = traverseFunction cfg cxa_demangle M fuel F st) ∧
  (∀ B st, traverseBasicBlock cfg cxa_demangle M' fuel B st
           = traverseBasicBlock cfg cxa_demangle M fuel B st).
Proof.
  intros Hsame. induction fuel as [|fuel [IHF IHB]]; [by split|]. split.
  - intros F st. rewrite !traverseFunction_unfold. unfold displayName.
    rewrite (edges_getName _ _ Hsame), (edges_getEntryBlock _ _ Hsame).
    repeat case_decide; try done.
    destruct (getEntryBlock M F) as [FirstBlock|]; [|done].
    by rewrite IHB.
  - intros B st. rewrite !traverseBasicBlock_unfold.
    case_decide; [done|]. unfold examineBlock.
    rewrite (examineBlock_loop_callees _ (instructions M' B)).
    rewrite (examineBlock_loop_callees _ (instructions M B)).
    rewrite (edges_callees _ _ Hsame).
    rewrite (examineBlock_loop_ext _ _ IHF).
    destruct (examineBlock_loop _ _ _ _) as [[r1 st1]|]; [|done].
    rewrite (successors_loop_present _ (successors M' B)).
    rewrite (successors_loop_present _ (successors M B)).
    rewrite !successors_present, (edges_successors _ _ Hsame).
    apply successors_loop_ext, IHB.
Qed.

(** X12. The traversal reads a block only through its direct callees and
    its successors that are not null: on two modules with the same
    functions whose blocks agree on those, every visit and every run gives
    the same result and state.  Indirect calls, other instructions and
    null successors change nothing, and a block without a terminator is
    treated like one without successors. *)
Theorem only_direct_calls_and_successors_matter (cfg : Config)
    (cxa_demangle : string → option string) (M M' : Module)
    (fuel : nat) (st : State) :
  same_edges M M' →
  (∀ F, traverseFunction cfg cxa_demangle M' fuel F st
        = traverseFunction cfg cxa_demangle M fuel F st) ∧
  runOnModule cfg cxa_demangle M' fuel st
  = runOnModule cfg cxa_demangle M fuel st.
Proof.
  intros Hsame.
  pose proof (proj1 (traverse_same_edges cfg cxa_demangle M M' fuel Hsame))
    as HF.
  split; [by intros F|].
  unfold runOnModule. rewrite (edges_getFunction _ _ Hsame).
  destruct (getFunction M (SourceFunction cfg)) as [Source|]; [|done].
  unfold bind. by rewrite HF.
Qed.

(** ** Reading the chain back from a report *)

Lemma length_append (a b : string) :
  String.length (a +:+ b) = String.length a + String.length b.
Proof.
  induction a as [|x a IH]; [reflexivity|].
  change (S (String.length (a +:+ b)) = S (String.length a + String.length b)).
  by rewrite IH.
Qed.

Lemma append_inj_r (a b c : string) : a +:+ c = b +:+ c → a = b.
Proof.
  revert b. induction a as [|x a IH]; intros [|y b] Heq; [done|..].
  - apply (f_equal String.length) in Heq.
    rewrite !length_append in Heq. simpl in Heq. lia.
  - apply (f_equal String.length) in Heq.
    rewrite !length_append in Heq. simpl in Heq. lia.
  - change (String x (a +:+ c) = String y (b +:+ c)) in Heq.
    injection Heq as -> Heq. by rewrite (IH b Heq).
Qed.

Lemma name_then_rest (F1 F2 r1 r2 : string) :
  has_space F1 = false → has_space F2 = false →
  (r1 = "" ∨ ∃ r, r1 = String (Ascii.ascii_of_nat 32) r) →
  (r2 = "" ∨ ∃ r, r2 = String (Ascii.ascii_of_nat 32) r) →
  F1 +:+ r1 = F2 +:+ r2 →
  F1 = F2 ∧ r1 = r2.
Proof.
  revert F2. induction F1 as [|x F1 IH]; intros [|y F2] H1 H2 Hr1 Hr2 Heq.
  - done.
  - change (r1 = String y (F2 +:+ r2)) in Heq. simpl in H2.
    destruct Hr1 as [->|[r ->]]; [done|]. injection Heq as <- _.
    by rewrite Ascii.eqb_refl in H2.
  - change (String x (F1 +:+ r1) = r2) in Heq. simpl in H1.
    destruct Hr2 as [->|[r ->]]; [done|]. injection Heq as -> _.
    by rewrite Ascii.eqb_refl in H1.
  - change (String x (F1 +:+ r1) = String y (F2 +:+ r2)) in Heq.
    injection Heq as -> Heq. simpl in H1, H2.
    destruct (Ascii.eqb y (Ascii.ascii_of_nat 32)); [done|].
    by destruct (IH F2 H1 H2 Hr1 Hr2 Heq) as [-> ->].
Qed.

Lemma chain_text_start (chain : list string) :
  chain_text chain = "" ∨
  ∃ r, chain_text chain = String (Ascii.ascii_of_nat 32) r.
Proof. destruct chain as [|F chain]; [by left|right]. by eexists. Qed.

Lemma chain_text_inj (chain1 chain2 : list string) :
  Forall (λ F, has_space F = false) chain1 →
  Forall (λ F, has_space F = false) chain2 →
  chain_text chain1 = chain_text chain2 →
  chain1 = chain2.
Proof.
  intros H1. revert chain2.
  induction H1 as [|F1 chain1 HF1 _ IH]; intros chain2 H2 Heq.
  - by destruct chain2.
  - destruct H2 as [|F2 chain2 HF2 H2]; [done|].
    change (String (Ascii.ascii_of_nat 32) (F1 +:+ chain_text chain1)
            = String (Ascii.ascii_of_nat 32) (F2 +:+ chain_text chain2))
      in Heq.
    injection Heq as Heq.
    destruct (name_then_rest _ _ _ _ HF1 HF2 (chain_text_start chain1)
                (chain_text_start chain2) Heq) as [-> Hrest].
    by rewrite (IH chain2 H2 Hrest).
Qed.

(** X13. When no name on the chain holds a space, the text written by
    [warnOnCallChain] determines the chain: two calls that start from
    the same text and write the same text were made with the same
    chain. *)
Theorem report_determines_chain (st1 st2 : State)
    (out1 out2 : unit * State) :
  Forall (λ F, has_space F = false) (FunctionChain st1) →
  Forall (λ F, has_space F = false) (FunctionChain st2) →
  warnOnCallChain st1 = Some out1 →
  warnOnCallChain st2 = Some out2 →
  errs st1 = errs st2 →
  errs out1.2 = errs out2.2 →
  FunctionChain st1 = FunctionChain st2.
Proof.
  intros H1 H2. rewrite !warnOnCallChain_text.
  intros [= <-] [= <-] Hbefore. simpl. rewrite Hbefore.
  intros Heq%(inj (String.app _)). unfold report_text in Heq.
  apply (inj (String.app _)), append_inj_r in Heq.
  by apply chain_text_inj.
Qed.

(** With spaces in the names the report is ambiguous. *)
Example report_with_spaces_is_ambiguous :
  report_text ["unsigned int"] = report_text ["unsigned"; "int"].
Proof. reflexivity. Qed.


(** ** The properties on the example programs *)

(** Scenario: handler, [A()], [mutex_acquire], with a call back to the
    handler. *)
Example cyclic_module_report :
  option_map (λ out, errs (snd out))
    (runOnModule InterruptContext_config demangle_A cyclic_module 8
       initial_state)
  = Some (report_line ["x86_exception_handler"; "A()"; "mutex_acquire"]).
Proof. vm_compute. reflexivity. Qed.

(** Scenario: two callers of [mutex_acquire] give two reports. *)
Example two_callers_reports :
  option_map (λ out, errs (snd out))
    (runOnModule InterruptContext_config no_demangle two_callers_module 8
       initial_state)
  = Some (report_line ["x86_exception_handler"; "B"; "mutex_acquire"] +:+
          report_line ["x86_exception_handler"; "C"; "mutex_acquire"]).
Proof. vm_compute. reflexivity. Qed.

Lemma blacklisted_function_reported_not_explored_witness :
  ∃ st',
    traverseFunction InterruptContext_config demangle_A cyclic_module 1 2
      (push_back "x86_exception_handler" initial_state) = Some (false, st') ∧
    errs st' = report_line ["x86_exception_handler"; "mutex_acquire"] ∧
    FunctionChain st' = ["x86_exception_handler"] ∧
    BasicBlockPtrSet st' = ∅.
Proof.
  destruct (blacklisted_function_reported_not_explored
              InterruptContext_config demangle_A cyclic_module 0 2
              (push_back "x86_exception_handler" initial_state))
    as [(st' & Hrun & Herrs & Hchain & _ & Hblocks) _].
  - by_computation.
  - by_computation.
  - by_computation.
  - exists st'. split_and!; done.
Defined.

Lemma sink_absorbs_witness :
  traverseFunction InterruptContext_config demangle_A cyclic_module 1 3
    initial_state = Some (true, initial_state).
Proof.
  apply (sink_absorbs InterruptContext_config demangle_A cyclic_module 0 3
           initial_state).
  by_computation.
Defined.

Lemma sink_tested_before_blacklist_witness :
  ∃ st',
    traverseFunction overlapping_config demangle_A cyclic_module 1 3
      initial_state = Some (true, st') ∧
    errs st' = "" ∧ FunctionChain st' = [].
Proof.
  destruct (sink_tested_before_blacklist overlapping_config demangle_A
              cyclic_module 0 3 initial_state)
    as (st' & Hrun & Herrs & Hchain & _).
  - by_computation.
  - by_computation.
  - by exists st'.
Defined.

Lemma absent_source_is_no_op_witness :
  runOnModule InterruptContext_config no_demangle no_source_module 8
    initial_state = Some (false, initial_state).
Proof.
  apply (absent_source_is_no_op InterruptContext_config no_demangle
           no_source_module 8 initial_state).
  reflexivity.
Defined.


Lemma chain_is_balanced_witness :
  ∃ r st',
    traverseFunction InterruptContext_config demangle_A cyclic_module 8 0
      initial_state = Some (r, st') ∧
    FunctionChain st' = [].
Proof.
  destruct (traverseFunction InterruptContext_config demangle_A cyclic_module
              8 0 initial_state) as [[r st']|] eqn:Hrun;
    [|by vm_compute in Hrun].
  exists r, st'. split; [done|].
  by destruct (chain_is_balanced InterruptContext_config demangle_A
                 cyclic_module 8 0 initial_state r st' Hrun) as [-> _].
Defined.

Lemma cyclic_module_closed :
  closed_universe cyclic_module {[0; 1; 2; 3]} {[0; 1; 2]}.
Proof.
  split.
  - intros F B HF. set_unfold in HF.
    destruct HF as [[[-> | ->] | ->] | ->]; simpl; intros [= <-]; set_solver.
  - intros B F HB. set_unfold in HB.
    destruct HB as [[-> | ->] | ->]; simpl; intros HF;
      repeat (destruct HF as [HF|HF]); try done; simplify_eq; set_solver.
  - intros B B' HB. set_unfold in HB.
    destruct HB as [[-> | ->] | ->]; cbv [successors]; simpl; intros HB';
      repeat (destruct HB' as [HB'|HB']); try done; simplify_eq; set_solver.
Qed.

Lemma terminates_visiting_once_witness :
  ∃ r st' log,
    traverseFunction InterruptContext_config demangle_A cyclic_module 8 0
      initial_state = Some (r, st') ∧
    NoDup (entered_functions log) ∧ NoDup (entered_blocks log).
Proof.
  destruct (terminates_visiting_once InterruptContext_config demangle_A
              cyclic_module {[0; 1; 2; 3]} {[0; 1; 2]} 8 0 initial_state)
    as (r & st' & log & Hrun & _ & Hfunctions & Hblocks & _).
  - exact cyclic_module_closed.
  - by_computation.
  - apply Nat.ltb_lt. vm_compute. reflexivity.
  - by exists r, st', log.
Defined.


Lemma output_is_report_lines_witness :
  ∃ r st' log,
    runOnModule InterruptContext_config demangle_A cyclic_module 8
      initial_state = Some (r, st') ∧
    traverseFunction InterruptContext_config demangle_A cyclic_module 8 0
      initial_state = Some (false, st') ∧
    reported log ≠ [] ∧
    errs st' = "" +:+ lines_text (map report_line (reported log)).
Proof.
  assert (∃ r st', runOnModule InterruptContext_config demangle_A
                     cyclic_module 8 initial_state = Some (r, st'))
    as (r & st' & Hrun) by (eexists _, _; vm_compute; reflexivity).
  destruct (output_is_report_lines InterruptContext_config demangle_A
              cyclic_module 8 initial_state r st' Hrun) as [_ Hlines].
  assert (getFunction cyclic_module (SourceFunction InterruptContext_config)
          = Some 0) as Hsource by reflexivity.
  rewrite Hsource in Hlines.
  destruct Hlines as (r1 & log & Hrun1 & _ & Hresult & Herrs & _).
  assert (r1 = false) as ->.
  { vm_compute in Hrun, Hrun1. congruence. }
  exists r, st', log. split_and!; [exact Hrun|exact Hrun1| |exact Herrs].
  intros Hnone. by apply Hresult in Hnone.
Defined.

Lemma two_callers_module_owned :
  owned_blocks two_callers_module (λ B : BasicBlock, B).
Proof.
  split.
  - intros [|[|[|F]]] B; simpl; by intros [= <-].
  - intros B B' [].
Qed.



Lemma shift_module_same_graph (k : nat) (M : Module) :
  same_graph (λ F, F + k) (λ B, B + k) M (shift_module k M).
Proof.
  split; simpl.
  - intros F G. lia.
  - intros B B'. lia.
  - done.
  - intros F. by rewrite Nat.add_sub.
  - intros F. by rewrite Nat.add_sub.
  - intros B. by rewrite Nat.add_sub.
  - intros B. by rewrite Nat.add_sub.
Qed.

Lemma runs_agree_witness :
  ∃ out1 out2,
    runOnModule InterruptContext_config demangle_A cyclic_module 8
      initial_state = Some out1 ∧
    runOnModule InterruptContext_config demangle_A
      (shift_module 10 cyclic_module) 12
      (rename_state (λ F, F + 10) (λ B, B + 10) initial_state) = Some out2 ∧
    errs out2.2 = errs out1.2.
Proof.
  assert (∃ out1, runOnModule InterruptContext_config demangle_A
                    cyclic_module 8 initial_state = Some out1)
    as [out1 Hrun1] by (eexists; vm_compute; reflexivity).
  assert (∃ out2, runOnModule InterruptContext_config demangle_A
                    (shift_module 10 cyclic_module) 12
                    (rename_state (λ F, F + 10) (λ B, B + 10) initial_state)
                  = Some out2)
    as [out2 Hrun2] by (eexists; vm_compute; reflexivity).
  exists out1, out2. split_and!; [exact Hrun1|exact Hrun2|].
  exact (proj1 (proj2
    (runs_agree InterruptContext_config demangle_A
       (λ F, F + 10) (λ B, B + 10) cyclic_module
       (shift_module 10 cyclic_module) 8 12 initial_state out1 out2
       (shift_module_same_graph 10 cyclic_module) Hrun1 Hrun2))).
Defined.


(** ** The further properties on the example programs *)

(** Scenario: a violation behind a shared callee is reported for the
    first caller only. *)
Example diamond_module_report :
  option_map (λ out, errs (snd out))
    (runOnModule InterruptContext_config no_demangle diamond_module 8
       initial_state)
  = Some (report_line
            ["x86_exception_handler"; "B"; "D"; "mutex_acquire"]).
Proof. vm_compute. reflexivity. Qed.

Lemma result_true_iff_nothing_written_witness :
  ∃ r st',
    traverseFunction InterruptContext_config demangle_A cyclic_module 8 0
      initial_state = Some (r, st') ∧
    (r = true ↔ errs st' = "").
Proof.
  assert (∃ r st', traverseFunction InterruptContext_config demangle_A
                     cyclic_module 8 0 initial_state = Some (r, st'))
    as (r & st' & Hrun) by (eexists _, _; vm_compute; reflexivity).
  exists r, st'. split; [exact Hrun|].
  exact (result_true_iff_nothing_written InterruptContext_config demangle_A
           cyclic_module 8 0 initial_state r st' Hrun).
Defined.

Lemma traverseBasicBlock_contract_witness :
  ∃ r st',
    traverseBasicBlock InterruptContext_config demangle_A cyclic_module 8 0
      (insert_function 0 (push_back "x86_exception_handler" initial_state))
    = Some (r, st') ∧
    0 ∈ BasicBlockPtrSet st' ∧
    FunctionChain st' = ["x86_exception_handler"].
Proof.
  assert (∃ r st',
            traverseBasicBlock InterruptContext_config demangle_A
              cyclic_module 8 0
              (insert_function 0
                 (push_back "x86_exception_handler" initial_state))
            = Some (r, st'))
    as (r & st' & Hrun) by (eexists _, _; vm_compute; reflexivity).
  exists r, st'. split; [exact Hrun|].
  destruct (traverseBasicBlock_contract InterruptContext_config demangle_A
              cyclic_module 8 0 _ r st' Hrun) as (Hblock & Hchain & _).
  by split.
Defined.

Lemma examineBlock_contract_witness :
  ∃ r st',
    examineBlock InterruptContext_config demangle_A cyclic_module 8 0
      handler_entered = Some (r, st') ∧
    FunctionChain st' = ["x86_exception_handler"].
Proof.
  assert (∃ r st',
            examineBlock InterruptContext_config demangle_A cyclic_module
              8 0 handler_entered = Some (r, st'))
    as (r & st' & Hrun) by (eexists _, _; vm_compute; reflexivity).
  exists r, st'. split; [exact Hrun|].
  by destruct (examineBlock_contract InterruptContext_config demangle_A
                 cyclic_module 8 0 handler_entered r st' Hrun) as [Hchain _].
Defined.

Lemma visited_functions_stay_ordinary_witness :
  ∃ r st',
    traverseFunction InterruptContext_config demangle_A cyclic_module 8 0
      initial_state = Some (r, st') ∧
    ∀ G, G ∈ FuncPtrSet st' →
         ordinary InterruptContext_config demangle_A cyclic_module G.
Proof.
  assert (∃ r st', traverseFunction InterruptContext_config demangle_A
                     cyclic_module 8 0 initial_state = Some (r, st'))
    as (r & st' & Hrun) by (eexists _, _; vm_compute; reflexivity).
  exists r, st'. split; [exact Hrun|].
  apply (visited_functions_stay_ordinary InterruptContext_config demangle_A
           cyclic_module 8 0 initial_state r st' Hrun).
  intros G HG. by apply not_elem_of_empty in HG.
Defined.

Lemma revisit_is_silent_witness :
  ∃ st1,
    traverseFunction InterruptContext_config demangle_A cyclic_module 8 1
      initial_state = Some (false, st1) ∧
    traverseFunction InterruptContext_config demangle_A cyclic_module 1 1
      st1 = Some (true, st1).
Proof.
  assert (∃ st1, traverseFunction InterruptContext_config demangle_A
                   cyclic_module 8 1 initial_state = Some (false, st1))
    as (st1 & Hrun) by (eexists; vm_compute; reflexivity).
  exists st1. split; [exact Hrun|].
  apply (revisit_is_silent InterruptContext_config demangle_A cyclic_module
           8 0 1 initial_state false st1 st1 Hrun); [|done].
  split; by_computation.
Defined.

Lemma runOnModule_contract_witness :
  ∃ r st',
    runOnModule InterruptContext_config demangle_A cyclic_module 8
      initial_state = Some (r, st') ∧
    r = false ∧ FunctionChain st' = [].
Proof.
  assert (∃ r st', runOnModule InterruptContext_config demangle_A
                     cyclic_module 8 initial_state = Some (r, st'))
    as (r & st' & Hrun) by (eexists _, _; vm_compute; reflexivity).
  exists r, st'. split; [exact Hrun|].
  destruct (runOnModule_contract InterruptContext_config demangle_A
              cyclic_module 8 initial_state r st' Hrun) as (Hr & Hchain & _).
  by split.
Defined.

Lemma cyclic_module_violation_path :
  violation_path InterruptContext_config demangle_A cyclic_module 0 [0; 1; 2].
Proof.
  apply violation_below with 1; [by_computation|by_computation| |].
  { exists 0, 0. split_and!; [reflexivity|constructor|]. right. by left. }
  apply violation_below with 2; [by_computation|by_computation| |].
  { exists 1, 1. split_and!; [reflexivity|constructor|]. by left. }
  apply violation_here; by_computation.
Qed.

Lemma every_violation_is_reported_witness :
  ∃ st' before chain after,
    traverseFunction InterruptContext_config demangle_A cyclic_module 8 0
      initial_state = Some (false, st') ∧
    errs st' = "" +:+ before +:+
      report_line (chain ++ ["mutex_acquire"]) +:+ after.
Proof.
  assert (∃ r st', traverseFunction InterruptContext_config demangle_A
                     cyclic_module 8 0 initial_state = Some (r, st'))
    as (r & st' & Hrun) by (eexists _, _; vm_compute; reflexivity).
  destruct (every_violation_is_reported InterruptContext_config demangle_A
              cyclic_module 8 0 initial_state r st' [0; 1; 2] 2
              eq_refl eq_refl Hrun cyclic_module_violation_path eq_refl)
    as (-> & before & chain & after & Herrs).
  by exists st', before, chain, after.
Defined.

Lemma clean_iff_no_violation_path_witness :
  ∃ r st',
    traverseFunction InterruptContext_config demangle_A cyclic_module 8 0
      initial_state = Some (r, st') ∧
    (r = true ↔
     ∀ p, ¬ violation_path InterruptContext_config demangle_A cyclic_module
              0 p).
Proof.
  assert (∃ r st', traverseFunction InterruptContext_config demangle_A
                     cyclic_module 8 0 initial_state = Some (r, st'))
    as (r & st' & Hrun) by (eexists _, _; vm_compute; reflexivity).
  exists r, st'. split; [exact Hrun|].
  exact (clean_iff_no_violation_path InterruptContext_config demangle_A
           cyclic_module 8 0 initial_state r st' eq_refl eq_refl Hrun).
Defined.

Lemma visited_sets_are_what_is_reachable_witness :
  ∃ r st',
    traverseFunction InterruptContext_config demangle_A cyclic_module 8 0
      initial_state = Some (r, st') ∧
    ∀ G, G ∈ FuncPtrSet st' ↔
         explores InterruptContext_config demangle_A cyclic_module 0 G.
Proof.
  assert (∃ r st', traverseFunction InterruptContext_config demangle_A
                     cyclic_module 8 0 initial_state = Some (r, st'))
    as (r & st' & Hrun) by (eexists _, _; vm_compute; reflexivity).
  exists r, st'. split; [exact Hrun|].
  by destruct (visited_sets_are_what_is_reachable InterruptContext_config
                 demangle_A cyclic_module 8 0 initial_state r st'
                 eq_refl eq_refl Hrun) as [Hfunctions _].
Defined.

Lemma diamond_module_callees_of_C G :
  calls diamond_module 2 G → G = 3.
Proof.
  intros (B0 & B & [= <-] & Hreach & Hcall).
  inversion Hreach as [|? B1 ? Hsucc]; subst; [|by destruct Hsucc].
  by destruct Hcall as [[= <-]|[]].
Qed.

Lemma shared_callee_is_not_reported_again_witness :
  ∃ st',
    traverseFunction InterruptContext_config no_demangle diamond_module 3 2
      (insert_function 3 initial_state) = Some (true, st') ∧
    errs st' = "".
Proof.
  assert (∃ r st', traverseFunction InterruptContext_config no_demangle
                     diamond_module 3 2 (insert_function 3 initial_state)
                   = Some (r, st'))
    as (r & st' & Hrun) by (eexists _, _; vm_compute; reflexivity).
  destruct (shared_callee_is_not_reported_again InterruptContext_config
              no_demangle diamond_module 3 2
              (insert_function 3 initial_state) r st') as [-> Herrs].
  - by_computation.
  - intros G ->%diamond_module_callees_of_C. left. by_computation.
  - exact Hrun.
  - by exists st'.
Defined.

Lemma cyclic_module_same_edges :
  same_edges cyclic_module cyclic_module_edges_only.
Proof.
  split; try done.
  - by intros [|[|B]].
  - by intros [|B].
Qed.

Lemma only_direct_calls_and_successors_matter_witness :
  runOnModule InterruptContext_config demangle_A cyclic_module_edges_only 8
    initial_state
  = runOnModule InterruptContext_config demangle_A cyclic_module 8
      initial_state.
Proof.
  apply (only_direct_calls_and_successors_matter InterruptContext_config
           demangle_A cyclic_module cyclic_module_edges_only 8 initial_state).
  exact cyclic_module_same_edges.
Defined.

Lemma report_determines_chain_witness :
  FunctionChain (push_back "A" (push_back "x86_exception_handler" initial_state))
  = FunctionChain
      (insert_function 7
         (push_back "A" (push_back "x86_exception_handler" initial_state))).
Proof.
  assert (∃ out1, warnOnCallChain
                    (push_back "A"
                       (push_back "x86_exception_handler" initial_state))
                  = Some out1)
    as [out1 Hrun1] by (eexists; vm_compute; reflexivity).
  assert (∃ out2, warnOnCallChain
                    (insert_function 7
                       (push_back "A"
                          (push_back "x86_exception_handler" initial_state)))
                  = Some out2 ∧ errs out2.2 = errs out1.2)
    as (out2 & Hrun2 & Heq).
  { eexists. split; [vm_compute; reflexivity|].
    vm_compute in Hrun1. injection Hrun1 as <-. vm_compute. reflexivity. }
  apply (report_determines_chain _ _ out1 out2); try done.
  - repeat constructor.
  - repeat constructor.
Defined.

Lemma runOnModule_terminates_witness :
  is_Some (runOnModule InterruptContext_config demangle_A cyclic_module 8
             initial_state).
Proof.
  apply (runOnModule_terminates InterruptContext_config demangle_A
           cyclic_module {[0; 1; 2; 3]} {[0; 1; 2]} 8 initial_state).
  - exact cyclic_module_closed.
  - intros Source HSource. vm_compute in HSource.
    injection HSource as <-. by_computation.
  - apply Nat.ltb_lt. vm_compute. reflexivity.
Defined.

Lemma rerun_is_memoized_witness :
  ∃ r st1,
    runOnModule InterruptContext_config demangle_A cyclic_module 8
      initial_state = Some (r, st1) ∧
    runOnModule InterruptContext_config demangle_A cyclic_module 1 st1
    = Some (false, st1).
Proof.
  assert (∃ r st1, runOnModule InterruptContext_config demangle_A
                     cyclic_module 8 initial_state = Some (r, st1))
    as (r & st1 & Hrun) by (eexists _, _; vm_compute; reflexivity).
  exists r, st1. split; [exact Hrun|].
  apply (rerun_is_memoized InterruptContext_config demangle_A cyclic_module
           8 0 0 initial_state r st1); [reflexivity| | |exact Hrun];
    by_computation.
Defined.


Lemma reported_chains_are_simple_paths_witness :
  ∃ r st' ps,
    traverseFunction InterruptContext_config demangle_A cyclic_module 8 0
      initial_state = Some (r, st') ∧
    Forall (λ p, NoDup p) ps ∧
    errs st' = "" +:+
      lines_text
        (map (λ p, report_line
                     ([] ++ map (displayName demangle_A cyclic_module) p))
           ps).
Proof.
  assert (∃ r st', traverseFunction InterruptContext_config demangle_A
                     cyclic_module 8 0 initial_state = Some (r, st'))
    as (r & st' & Hrun) by (eexists _, _; vm_compute; reflexivity).
  destruct (reported_chains_are_simple_paths InterruptContext_config
              demangle_A cyclic_module 8 0 initial_state r st' Hrun)
    as (ps & Hps & Herrs).
  exists r, st', ps. split_and!; [exact Hrun| |exact Herrs].
  eapply Forall_impl; [exact Hps|]. by intros p [_ Hnd].
Defined.


(** C9, as stated, fails: on the same module with the same configuration,
    the first run of a pass object reports the chain to [mutex_acquire];
    a second run on that object finds the handler memoized and writes
    nothing. *)
Lemma second_run_writes_nothing_counterexample :
  ∃ st1 st2 text1 text2,
    runOnModule InterruptContext_config demangle_A cyclic_module 8
      initial_state = Some (false, st1) ∧
    runOnModule InterruptContext_config demangle_A cyclic_module 8 st1
    = Some (false, st2) ∧
    errs st1 = errs initial_state +:+ text1 ∧
    errs st2 = errs st1 +:+ text2 ∧
    text1 = report_line ["x86_exception_handler"; "A()"; "mutex_acquire"] ∧
    text2 = "" ∧
    text1 ≠ text2.
Proof.
  eexists _, _, _, _.
  split; [vm_compute; reflexivity|].
  split; [vm_compute; reflexivity|].
  split; [vm_compute; reflexivity|].
  split; [vm_compute; reflexivity|].
  split; [reflexivity|]. split; [reflexivity|]. by vm_compute.
Qed.
